(** * PrivateKey: key construction, export and signing

    A shallow embedding of the [PrivateKey] class, a wrapper around an
    ethers [Wallet].  The methods are translated line by line.  What they
    call is not part of the sources and comes in three layers:

    - string and byte helpers of the JavaScript runtime and of ethers
      ([startsWith], [slice], [replace], [Buffer.from(_, 'hex')],
      [hexlify], [arrayify], [concat], [hexZeroPad], [splitSignature]),
      written out as the functions their documentation describes;
    - the signing entry points of ethers, secp256k1 and eth-sig-util,
      written as the specification describes them, around a signer;
    - the cryptographic cores (keccak-256, deterministic ECDSA, public key
      and address derivation, BIP39 and BIP32, the EIP-712 hash) and the
      sibling classes [PublicKey] and [Address], which are fields of the
      [Primitives] interface.

    Of the cores, keccak-256, the address checksum and the two signers the
    class reaches (the one of elliptic behind the wallet, the one of
    libsecp256k1 behind the [secp256k1] package) are also written out and
    run, so that the two signing paths can be compared on their own
    signers.

    The file then embeds [LedgerTransport], the class that finds and caches
    a Ledger transport; the browser's WebHID and WebUSB interfaces are an
    explicit argument of its methods. *)

From Stdlib Require Import List String Ascii NArith PeanoNat Lia Bool.
From Stdlib Require Import Strings.Byte.
From Bignums Require BigN.
Import ListNotations.

Local Open Scope list_scope.
Local Open Scope string_scope.

(** ** Results of calls that may throw *)

(** What a call can throw.  The class itself throws nothing: every error is
    raised by a library it calls. *)
Inductive exn : Type :=
| InvalidPrivateKey            (* ethers SigningKey: "invalid private key" *)
| InvalidHexData               (* ethers bytes: invalid or odd-length hex  *)
| ValueOutOfRange              (* ethers hexZeroPad: "value out of range"  *)
| InvalidSignature             (* ethers splitSignature                    *)
| BadDigestLength              (* ethers signDigest: "bad digest length"   *)
| Secp256k1Rejected            (* secp256k1: bad message or private key    *)
| InvalidMnemonic              (* ethers HDNode: invalid word or checksum  *)
| LibraryError (what : string) (* thrown inside a primitive                *).

Inductive Result (A : Type) : Type :=
| Ok (a : A)
| Throw (e : exn).

Arguments Ok {A} a.
Arguments Throw {A} e.

Definition rbind {A B : Type} (r : Result A) (k : A -> Result B) : Result B :=
  match r with
  | Ok a => k a
  | Throw e => Throw e
  end.

Declare Scope result_scope.
Delimit Scope result_scope with result.
Notation "x <- r ;; k" := (rbind r (fun x => k))
  (at level 61, r at next level, right associativity) : result_scope.

Definition isOk {A : Type} (r : Result A) : bool :=
  match r with Ok _ => true | Throw _ => false end.

(** ** JavaScript strings *)

Module JS.

(** [s.startsWith(p)] *)
Fixpoint startsWith (p s : string) : bool :=
  match p with
  | EmptyString => true
  | String a p' =>
      match s with
      | EmptyString => false
      | String b s' => Ascii.eqb a b && startsWith p' s'
      end
  end.

(** [s.slice(n)] for [n >= 0] *)
Fixpoint slice (n : nat) (s : string) : string :=
  match n with
  | O => s
  | S n' =>
      match s with
      | EmptyString => EmptyString
      | String _ s' => slice n' s'
      end
  end.

(** [s.replace(p, r)] with a string pattern: the first occurrence of [p],
    wherever it is, becomes [r]. *)
Fixpoint replace (p r s : string) : string :=
  if startsWith p s then r ++ slice (String.length p) s
  else match s with
       | EmptyString => EmptyString
       | String c s' => String c (replace p r s')
       end.

End JS.

(** ** Hexadecimal digits and byte strings *)

Module Hex.

(** Value of a hex digit, either case; [None] for any other character. *)
Definition digit (c : ascii) : option N :=
  let n := N_of_ascii c in
  if (48 <=? n)%N && (n <=? 57)%N then Some (n - 48)%N
  else if (97 <=? n)%N && (n <=? 102)%N then Some (n - 87)%N
  else if (65 <=? n)%N && (n <=? 70)%N then Some (n - 55)%N
  else None.

Definition is_digit (c : ascii) : bool :=
  match digit c with Some _ => true | None => false end.

(** Lower-case character of a value below 16. *)
Definition char (d : N) : ascii :=
  if (d <? 10)%N then ascii_of_N (48 + d) else ascii_of_N (87 + d).

Definition byte_of_N (n : N) : byte :=
  match Byte.of_N n with Some b => b | None => x00 end.

(** The two lower-case digits of a byte. *)
Definition of_byte (b : byte) (rest : string) : string :=
  String (char (Byte.to_N b / 16)) (String (char (Byte.to_N b mod 16)) rest).

Fixpoint encode (bs : list byte) : string :=
  match bs with
  | [] => EmptyString
  | b :: bs' => of_byte b (encode bs')
  end.

(** Pairs of hex digits to bytes, stopping at the first pair that is not
    two hex digits and dropping a last single character. *)
Fixpoint decode (s : string) : list byte :=
  match s with
  | String c1 (String c2 rest) =>
      match digit c1, digit c2 with
      | Some h, Some l => byte_of_N (16 * h + l) :: decode rest
      | _, _ => []
      end
  | _ => []
  end.

Fixpoint all_digits (s : string) : bool :=
  match s with
  | EmptyString => true
  | String c s' => is_digit c && all_digits s'
  end.

(** Big-endian value of a byte string. *)
Definition be_to_N (bs : list byte) : N :=
  fold_left (fun acc b => (256 * acc + Byte.to_N b)%N) bs 0%N.

(** The [len] low-order bytes of [n], big-endian. *)
Fixpoint be_bytes (len : nat) (n : N) : list byte :=
  match len with
  | O => []
  | S len' => (be_bytes len' (n / 256) ++ [byte_of_N (n mod 256)])%list
  end.

(** Minimal digit string of a number, most significant first; the empty
    string for zero. *)
Fixpoint digits_fuel (fuel : nat) (n : N) (acc : string) : string :=
  match fuel with
  | O => acc
  | S fuel' =>
      if (n =? 0)%N then acc
      else digits_fuel fuel' (n / 16) (String (char (n mod 16)) acc)
  end.

(** The number a digit string spells, read on from [acc]. *)
Fixpoint value_from (acc : N) (s : string) : N :=
  match s with
  | EmptyString => acc
  | String c s' =>
      value_from (16 * acc + match digit c with Some d => d | None => 0 end)%N s'
  end.

Definition value (s : string) : N := value_from 0 s.

(** [k] zero digits in front of [s]. *)
Definition zeros (k : nat) (s : string) : string := Nat.iter k (String "0"%char) s.

(** [bn.toString(16)] of a non-negative big number. *)
Definition of_N (n : N) : string :=
  if (n =? 0)%N then "0" else digits_fuel (N.to_nat (N.size n)) n EmptyString.

(** The digits of [n], padded on the left to [2 * len] digits. *)
Definition padded (len : nat) (n : N) : string :=
  zeros (2 * len - String.length (of_N n)) (of_N n).

End Hex.

(** Node's [Buffer.from(s, 'hex')]: decoding stops at the first character
    pair that is not hexadecimal, and a trailing single digit is dropped. *)
Definition Buffer_from_hex (s : string) : list byte := Hex.decode s.

(** ** The primitives the class relies on *)

(** Order of the secp256k1 group. *)
Definition secp256k1_n : N :=
  0xFFFFFFFFFFFFFFFFFFFFFFFFFFFFFFFEBAAEDCE6AF48A03BBFD25E8CD0364141%N.

(** Modelled from the spec: the cryptographic cores and the sibling classes
    ([PublicKey], [Address], the default-path constant) that the class
    imports, none of which is among the sources.  [ecdsa d h] is the
    deterministic (RFC 6979), canonical (low [s]) ECDSA signature of the
    32-byte digest [h] under the scalar [d]: its [r], its [s] and its
    recovery id.  The wallet's signing key, the low-level primitive and the
    typed-data signer are all described as deterministic ECDSA under the
    stored secret, and an instance has one signer for the three of them.
    The libraries have two, written out further down ([Elliptic.sign],
    [Libsecp256k1.sign]); where the two signing paths are compared, each
    runs on its own ([wallet_side], [primitive_side]). *)
Class Primitives : Type := {
  TypedData : Type;
  PublicKey : Type;
  Address : Type;
  DEFAULT_DERIVATION_PATH : string;
  keccak256 : list byte -> list byte;
  ecdsa : N -> list byte -> N * N * N;
  publicKeyOf : list byte -> Result string;
  computeAddress : string -> string;
  mnemonicValid : string -> bool;
  deriveSecret : string -> string -> Result (list byte);
  eip712Hash : TypedData -> Result (list byte);
  PublicKey_fromHex : string -> PublicKey;
  Address_fromHex : string -> Address;
  Address_toBech32 : Address -> string
}.

(** ** The ethers library, as far as the class uses it

    The byte helpers follow the library's documentation of [BytesLike],
    [DataHexString] and [Signature] values. *)

Module Ethers.

Local Open Scope result_scope.

Inductive BytesLike : Type :=
| HexStr (s : string)
| Bytes (b : list byte).

(** [isHexString(s)]: matches [/^0x[0-9A-Fa-f]*$/]. *)
Definition isHexString (s : string) : bool :=
  JS.startsWith "0x" s && Hex.all_digits (JS.slice 2 s).

(** [arrayify]: a byte array is copied; a hex string must be well formed
    and of even length. *)
Definition arrayify (v : BytesLike) : Result (list byte) :=
  match v with
  | Bytes b => Ok b
  | HexStr s =>
      if isHexString s then
        let hex := JS.slice 2 s in
        if Nat.even (String.length hex) then Ok (Hex.decode hex)
        else Throw InvalidHexData
      else Throw InvalidHexData
  end.

(** [hexlify] of a byte array: lower-case digits behind [0x]. *)
Definition hexlify (b : list byte) : string := "0x" ++ Hex.encode b.

Definition hexDataLength (s : string) : nat := (String.length s - 2) / 2.

(** [concat(items)]: every item through [arrayify], then joined. *)
Fixpoint concat (items : list BytesLike) : Result (list byte) :=
  match items with
  | [] => Ok []
  | x :: rest => a <- arrayify x ;; r <- concat rest ;; Ok (a ++ r)%list
  end.

(** [hexZeroPad(value, len)] on a string: [0] digits are put behind the
    prefix, one per turn of the loop, until [len] bytes are spelled. *)
Definition hexZeroPad (value : string) (len : nat) : Result string :=
  if negb (isHexString value) then Throw InvalidHexData
  else if (2 * len + 2 <? String.length value)%nat then Throw ValueOutOfRange
  else Ok (Nat.iter (2 * len + 2 - String.length value)
                    (fun v => "0x0" ++ JS.slice 2 v) value).

(** A signature object; a field that is not set is [None].  The compact
    form ([_vs]) is left out: it is recomputed from [s] and the recovery
    id, and the class never reads it. *)
Record SignatureLike : Type := {
  like_r : option string;
  like_s : option string;
  like_recoveryParam : option N;
  like_v : option N
}.

Record Signature : Type := {
  r : string;
  s : string;
  recoveryParam : N;
  v : N
}.

Definition like (sig : Signature) : SignatureLike :=
  {| like_r := Some (r sig); like_s := Some (s sig);
     like_recoveryParam := Some (recoveryParam sig); like_v := Some (v sig) |}.

Definition recIdOfV (v : N) : N :=
  if (v =? 0)%N || (v =? 1)%N then v else (1 - v mod 2)%N.

Definition paddedComponent (c : option string) : Result string :=
  match c with
  | None => Throw InvalidSignature
  | Some h => if isHexString h then hexZeroPad h 32 else Throw InvalidSignature
  end.

(** [splitSignature] on a signature object: the recovery id and [v] fill
    each other in or must agree; [r] and [s] are padded on the left to 32
    bytes; the top bit of [s] must be clear. *)
Definition splitSignature (sig : SignatureLike) : Result Signature :=
  rv <- match like_recoveryParam sig, like_v sig with
        | None, None => Throw InvalidSignature
        | None, Some v => Ok (recIdOfV v, v)
        | Some rp, None => Ok (rp, (27 + rp)%N)
        | Some rp, Some v =>
            if (rp =? recIdOfV v)%N then Ok (rp, v) else Throw InvalidSignature
        end ;;
  r <- paddedComponent (like_r sig) ;;
  s <- paddedComponent (like_s sig) ;;
  vs <- arrayify (HexStr s) ;;
  if (128 <=? Byte.to_N (hd x00 vs))%N then Throw InvalidSignature
  else Ok {| r := r; s := s; recoveryParam := fst rv; v := snd rv |}.

Record SigningKey : Type := {
  sk_privateKey : string;
  sk_publicKey : string
}.

Record Wallet : Type := {
  _signingKey : SigningKey;
  address : string;
  mnemonic : option (string * string)
}.

(** The [privateKey] getter of a wallet. *)
Definition privateKey (w : Wallet) : string := sk_privateKey (_signingKey w).

Section WithPrimitives.
Context {P : Primitives}.

(** [new SigningKey(bytes)]: the key is stored as [hexlify] has it and
    must spell 32 bytes ("invalid private key" otherwise); the public key
    is derived from it at once, and the derivation may throw. *)
Definition SigningKey_new (key : list byte) : Result SigningKey :=
  let hex := hexlify key in
  if negb (hexDataLength hex =? 32)%nat then Throw InvalidPrivateKey
  else
    bytes <- arrayify (HexStr hex) ;;
    pub <- publicKeyOf bytes ;;
    Ok {| sk_privateKey := hex; sk_publicKey := pub |}.

(** [new Wallet(bytes)] *)
Definition Wallet_new (key : list byte) : Result Wallet :=
  sk <- SigningKey_new key ;;
  Ok {| _signingKey := sk;
        address := computeAddress (sk_publicKey sk);
        mnemonic := None |}.

(** Modelled from the spec: [Wallet.fromMnemonic] belongs to the ethers
    library, whose code is not among the sources.  The phrase is checked
    against the word list and checksum first; only a valid phrase is
    taken through the derivation along the path, and the scalar that
    comes out makes the wallet. *)
Definition Wallet_fromMnemonic (words path : string) : Result Wallet :=
  if mnemonicValid words then
    key <- deriveSecret words path ;;
    w <- Wallet_new key ;;
    Ok {| _signingKey := _signingKey w;
          address := address w;
          mnemonic := Some (words, path) |}
  else Throw InvalidMnemonic.

(** Modelled from the spec: [signingKey.signDigest(digest)] of ethers, not
    among the sources.  The digest must be 32 bytes; the scalar, reduced
    modulo the group order, signs it canonically; the two components are
    printed in hex, padded on the left to 32 bytes, and returned in a
    signature object beside the recovery id. *)
Definition signDigest (sk : SigningKey) (digest : BytesLike)
  : Result Signature :=
  key <- arrayify (HexStr (sk_privateKey sk)) ;;
  digestBytes <- arrayify digest ;;
  if negb (List.length digestBytes =? 32)%nat then Throw BadDigestLength
  else
    let '(r, s, recid) := ecdsa (Hex.be_to_N key mod secp256k1_n) digestBytes in
    r' <- hexZeroPad ("0x" ++ Hex.of_N r) 32 ;;
    s' <- hexZeroPad ("0x" ++ Hex.of_N s) 32 ;;
    splitSignature {| like_r := Some r'; like_s := Some s';
                      like_recoveryParam := Some recid; like_v := None |}.

End WithPrimitives.

End Ethers.

(** ** The secp256k1 and eth-sig-util libraries *)

Section SigningLibraries.
Context {P : Primitives}.
Local Open Scope result_scope.

(** Modelled from the spec: [secp256k1.ecdsaSign(msg32, seckey)] called
    with no options, not among the sources.  Message and key must be 32
    bytes, the key a scalar in [1, n-1], or the primitive rejects them; the
    signature is the 64 bytes [r || s], returned beside the recovery id. *)
Definition secp256k1_ecdsaSign (msg32 seckey : list byte)
  : Result (list byte * N) :=
  if negb (List.length msg32 =? 32)%nat then Throw Secp256k1Rejected
  else if negb (List.length seckey =? 32)%nat then Throw Secp256k1Rejected
  else
    let d := Hex.be_to_N seckey in
    if (d =? 0)%N || (secp256k1_n <=? d)%N then Throw Secp256k1Rejected
    else
      let '(r, s, recid) := ecdsa d msg32 in
      Ok ((Hex.be_bytes 32 r ++ Hex.be_bytes 32 s)%list, recid).

(** Modelled from the spec: [signTypedData({privateKey, data, version: V4})]
    of eth-sig-util, not among the sources.  The EIP-712 hash of the data
    is signed, and the result is the hex string, behind [0x], of [r] and
    [s] (64 digits each) and of the byte [v = 27 + recovery id]. *)
Definition ethSigUtil_signTypedData (privateKey : list byte) (data : TypedData)
  : Result string :=
  messageHash <- eip712Hash data ;;
  sig <- secp256k1_ecdsaSign messageHash privateKey ;;
  let r := firstn 32 (fst sig) in
  let s := skipn 32 (fst sig) in
  let v := (snd sig + 27)%N in
  Ok ("0x" ++ Hex.encode r ++ Hex.encode s ++ Hex.of_N v).

End SigningLibraries.

(** ** The PrivateKey class *)

(** An instance: its one private field. *)
Record PrivateKey : Type := { wallet : Ethers.Wallet }.

(** A method body runs on the instance: it returns or throws, and hands the
    instance on. *)
Definition M (A : Type) : Type := PrivateKey -> Result A * PrivateKey.

Definition ret {A : Type} (a : A) : M A := fun this => (Ok a, this).

Definition bind {A B : Type} (m : M A) (k : A -> M B) : M B :=
  fun this =>
    match m this with
    | (Ok a, this') => k a this'
    | (Throw e, this') => (Throw e, this')
    end.

(** [const { wallet } = this] *)
Definition this_wallet : M Ethers.Wallet := fun this => (Ok (wallet this), this).

(** [this.wallet = w]: the one assignment in the class, the body of its
    private constructor. *)
Definition assign_wallet (w : Ethers.Wallet) : M unit :=
  fun _ => (Ok tt, {| wallet := w |}).

(** A library call made from a method body. *)
Definition call {A : Type} (r : Result A) : M A := fun this => (r, this).

Declare Scope method_scope.
Delimit Scope method_scope with method.
Notation "x <- m ;; k" := (bind m (fun x => k))
  (at level 61, m at next level, right associativity) : method_scope.

(** What a method returned, and the instance it left. *)
Definition returned {A : Type} (m : M A) (this : PrivateKey) : Result A := fst (m this).
Definition after {A : Type} (m : M A) (this : PrivateKey) : PrivateKey := snd (m this).

(** A method body that hands the instance on as it received it. *)
Definition reads_only {A : Type} (m : M A) : Prop := forall this, after m this = this.

(** The argument of [fromHex]: [string | Uint8Array]. *)
Inductive Secret : Type :=
| SecretString (s : string)
| SecretBytes (b : list byte).

(** [s.startsWith('0x') ? s.slice(2) : s] *)
Definition strip0x (s : string) : string :=
  if JS.startsWith "0x" s then JS.slice 2 s else s.

Section Class.
Context {P : Primitives}.
Import Ethers.

(** *** Construction *)

Definition fromMnemonic (words : string) (path : option string)
  : Result PrivateKey :=
  let path := match path with Some p => p | None => DEFAULT_DERIVATION_PATH end in
  (w <- Wallet_fromMnemonic words path ;; Ok {| wallet := w |})%result.

(** [generate()], given the phrase that [generateMnemonic()] drew. *)
Definition generate (mnemonic : string) : Result PrivateKey * string :=
  (fromMnemonic mnemonic None, mnemonic).

(** The [privateKeyBuff] of [fromHex]. *)
Definition privateKeyBuff (privateKey : Secret) : list byte :=
  match privateKey with
  | SecretString str => Buffer_from_hex (strip0x str)
  | SecretBytes b => b
  end.

Definition fromHex (privateKey : Secret) : Result PrivateKey :=
  (w <- Wallet_new (privateKeyBuff privateKey) ;; Ok {| wallet := w |})%result.

(** *** Export *)

Definition toPrivateKeyHex (this : PrivateKey) : string :=
  if JS.startsWith "0x" (privateKey (wallet this))
  then privateKey (wallet this)
  else "0x" ++ privateKey (wallet this).

Definition toPublicKey (this : PrivateKey) : PublicKey :=
  PublicKey_fromHex (privateKey (wallet this)).

Definition toHex (this : PrivateKey) : string :=
  if JS.startsWith "0x" (address (wallet this))
  then address (wallet this)
  else "0x" ++ address (wallet this).

Definition toAddress (this : PrivateKey) : Address :=
  Address_fromHex (toHex this).

Definition toBech32 (this : PrivateKey) : string :=
  Address_toBech32 (Address_fromHex (toHex this)).

(** *** Signing *)

Local Open Scope method_scope.

Definition sign (messageBytes : list byte) : M (list byte) :=
  wallet <- this_wallet ;;
  let msgHash := keccak256 messageBytes in
  signature <- call (signDigest (_signingKey wallet) (Bytes msgHash)) ;;
  splitSignature <- call (splitSignature (like signature)) ;;
  rs <- call (concat [HexStr (r splitSignature); HexStr (s splitSignature)]) ;;
  call (arrayify (Bytes rs)).

Definition signEcda (messageBytes : list byte) : M (list byte) :=
  wallet <- this_wallet ;;
  let msgHash := keccak256 messageBytes in
  let privateKeyHex := strip0x (privateKey wallet) in
  let privateKey := Buffer_from_hex privateKeyHex in
  sig <- call (secp256k1_ecdsaSign msgHash privateKey) ;;
  ret (fst sig).

Definition signHashed (messageHashedBytes : list byte) : M (list byte) :=
  wallet <- this_wallet ;;
  signature <- call (signDigest (_signingKey wallet) (Bytes messageHashedBytes)) ;;
  splitSignature <- call (splitSignature (like signature)) ;;
  rs <- call (concat [HexStr (r splitSignature); HexStr (s splitSignature)]) ;;
  call (arrayify (Bytes rs)).

Definition signHashedEcda (messageHashedBytes : list byte) : M (list byte) :=
  wallet <- this_wallet ;;
  let privateKeyHex := strip0x (privateKey wallet) in
  let privateKey := Buffer_from_hex privateKeyHex in
  sig <- call (secp256k1_ecdsaSign messageHashedBytes privateKey) ;;
  ret (fst sig).

Definition signTypedData (eip712Data : TypedData) : M (list byte) :=
  wallet <- this_wallet ;;
  let privateKeyHex := strip0x (privateKey wallet) in
  signature <- call (ethSigUtil_signTypedData (Buffer_from_hex privateKeyHex) eip712Data) ;;
  ret (Buffer_from_hex (JS.replace "0x" EmptyString signature)).

Definition signHashedTypedData (eip712Data : list byte) : M (list byte) :=
  wallet <- this_wallet ;;
  let privateKeyHex := strip0x (privateKey wallet) in
  let privateKey := Buffer_from_hex privateKeyHex in
  sig <- call (secp256k1_ecdsaSign eip712Data privateKey) ;;
  ret (fst sig).

End Class.

(** *** The six signing methods, as one family *)

Inductive SigningCall {P : Primitives} : Type :=
| CallSign (messageBytes : list byte)
| CallSignEcda (messageBytes : list byte)
| CallSignHashed (messageHashedBytes : list byte)
| CallSignHashedEcda (messageHashedBytes : list byte)
| CallSignTypedData (eip712Data : TypedData)
| CallSignHashedTypedData (eip712Data : list byte).

Definition invoke {P : Primitives} (c : SigningCall) : M (list byte) :=
  match c with
  | CallSign m => sign m
  | CallSignEcda m => signEcda m
  | CallSignHashed h => signHashed h
  | CallSignHashedEcda h => signHashedEcda h
  | CallSignTypedData d => signTypedData d
  | CallSignHashedTypedData h => signHashedTypedData h
  end.

(** ** Vocabulary of the statements *)

(** A secret the curve accepts: 32 bytes spelling a scalar in [1, n-1]. *)
Definition valid_secret (b : list byte) : Prop :=
  List.length b = 32%nat /\ (0 < Hex.be_to_N b < secp256k1_n)%N.

Definition ecdsa_r {P : Primitives} (d : N) (h : list byte) : N := fst (fst (ecdsa d h)).
Definition ecdsa_s {P : Primitives} (d : N) (h : list byte) : N := snd (fst (ecdsa d h)).
Definition ecdsa_recid {P : Primitives} (d : N) (h : list byte) : N := snd (ecdsa d h).

(** The contract of a canonical signature: [r] below the group order, [s] in
    the lower half, recovery id a parity bit. *)
Definition canonical_ecdsa (P : Primitives) : Prop :=
  forall d h,
    (ecdsa_r d h < secp256k1_n)%N /\
    (ecdsa_s d h <= secp256k1_n / 2)%N /\
    (ecdsa_recid d h <= 1)%N.

(** The same contract for one scalar and one digest. *)
Definition canonical_at {P : Primitives} (d : N) (h : list byte) : Prop :=
  (ecdsa_r d h < secp256k1_n)%N /\
  (ecdsa_s d h <= secp256k1_n / 2)%N /\
  (ecdsa_recid d h <= 1)%N.

(** keccak-256 and the EIP-712 hash produce 32-byte digests. *)
Definition digest_sized (P : Primitives) : Prop :=
  (forall m, List.length (keccak256 m) = 32%nat) /\
  (forall data h, eip712Hash data = Ok h -> List.length h = 32%nat).

(** The instance holds the secret [b]: its wallet stores the key as
    [hexlify] prints [b].  Both constructors establish it. *)
Definition key_of (pk : PrivateKey) (b : list byte) : Prop :=
  Ethers.privateKey (wallet pk) = Ethers.hexlify b.

(** The 64 bytes [r || s], each component big-endian on 32 bytes. *)
Definition r_s {P : Primitives} (d : N) (h : list byte) : list byte :=
  (Hex.be_bytes 32 (ecdsa_r d h) ++ Hex.be_bytes 32 (ecdsa_s d h))%list.

(** Lower-case hex digits only. *)
Definition lower_digit (c : ascii) : bool :=
  let n := N_of_ascii c in
  ((48 <=? n)%N && (n <=? 57)%N) || ((97 <=? n)%N && (n <=? 102)%N).

Fixpoint lower_digits (s : string) : bool :=
  match s with
  | EmptyString => true
  | String c s' => lower_digit c && lower_digits s'
  end.

(** The letter case [decode] ignores: an upper-case hex letter next to its
    lower-case form. *)
Definition lower (c : ascii) : ascii :=
  let n := N_of_ascii c in
  if (65 <=? n)%N && (n <=? 70)%N then ascii_of_N (n + 32) else c.

Fixpoint lowercase (s : string) : string :=
  match s with
  | EmptyString => EmptyString
  | String c s' => String (lower c) (lowercase s')
  end.

(** Decoding stops at [junk]: it does not begin with two hex digits. *)
Definition stops (junk : string) : bool :=
  match junk with
  | String c1 (String c2 _) => negb (Hex.is_digit c1 && Hex.is_digit c2)
  | _ => true
  end.

(** The string carries the [0x] prefix, and only once. *)
Definition prefixed_once (s : string) : Prop :=
  JS.startsWith "0x" s = true /\ JS.startsWith "0x" (JS.slice 2 s) = false.

(** An address as the wallet library prints it: [0x] and 40 hex digits. *)
Definition well_formed_address (a : string) : Prop :=
  exists h, a = "0x" ++ h /\ Hex.all_digits h = true /\ String.length h = 40%nat.

(** The contract of address derivation: what it returns is an address. *)
Definition address_shaped (P : Primitives) : Prop :=
  forall pub, well_formed_address (computeAddress pub).

(** ** An instance that computes

    Arithmetic stand-ins for the primitives, with the same interfaces and
    output sizes, so that the class can be run on concrete inputs. *)
Module Sample.

Definition digest (m : list byte) : list byte :=
  Hex.be_bytes 32 (31 * Hex.be_to_N m + 7).

Definition sig (d : N) (h : list byte) : N * N * N :=
  ((1 + (d + Hex.be_to_N h) mod (secp256k1_n - 1))%N,
   (1 + (3 * d + Hex.be_to_N h) mod (secp256k1_n / 2))%N,
   (Hex.be_to_N h mod 2)%N).

Definition pub (key : list byte) : Result string :=
  if (Hex.be_to_N key =? 0)%N || (secp256k1_n <=? Hex.be_to_N key)%N
  then Throw (LibraryError "scalar out of range")
  else Ok ("0x04" ++ Hex.encode key ++ Hex.encode key).

Definition addr (pub : string) : string := "0x" ++ JS.slice 92 pub.

Fixpoint words (s : string) : nat :=
  match s with
  | EmptyString => 1
  | String c s' => if Ascii.eqb c " " then S (words s') else words s'
  end.

Definition derive (phrase path : string) : Result (list byte) :=
  Ok (Hex.be_bytes 32 (N.of_nat (String.length phrase + String.length path))).

#[export] Instance primitives : Primitives := {|
  TypedData := list byte;
  PublicKey := string;
  Address := string;
  DEFAULT_DERIVATION_PATH := "m/44'/60'/0'/0/0";
  keccak256 := digest;
  ecdsa := sig;
  publicKeyOf := pub;
  computeAddress := addr;
  mnemonicValid := fun phrase => (words phrase =? 12)%nat;
  deriveSecret := derive;
  eip712Hash := fun data => Ok (digest (x19 :: x01 :: data));
  PublicKey_fromHex := fun s => s;
  Address_fromHex := fun s => s;
  Address_toBech32 := fun s => "inj" ++ s
|}.

(** The secret [0x0101..01]. *)
Definition secret : list byte := repeat x01 32.

(** The instance [fromHex] builds from it. *)
Definition key : PrivateKey :=
  {| wallet :=
       {| Ethers._signingKey :=
            {| Ethers.sk_privateKey :=
                 "0x0101010101010101010101010101010101010101010101010101010101010101";
               Ethers.sk_publicKey :=
                 "0x0401010101010101010101010101010101010101010101010101010101010101010101010101010101010101010101010101010101010101010101010101010101" |};
          Ethers.address := "0x0101010101010101010101010101010101010101";
          Ethers.mnemonic := None |} |}.

(** The message [hello] and a 32-byte digest. *)
Definition hello : list byte := [x68; x65; x6c; x6c; x6f].
Definition digest32 : list byte := digest hello.

(** The secret in hex, and the same with two characters that are not hex
    digits at its end. *)
Definition digits : string :=
  "0101010101010101010101010101010101010101010101010101010101010101".

Definition malformed : string := "0x" ++ digits ++ "zz".

End Sample.

(** ** A wallet as ethers builds it

    The wallet of the secret [1]: the public key is the curve generator and
    the address is in the mixed-case checksum form in which ethers stores
    every address. *)
Module Vector.

Definition wallet_of_one : Ethers.Wallet :=
  {| Ethers._signingKey :=
       {| Ethers.sk_privateKey :=
            "0x0000000000000000000000000000000000000000000000000000000000000001";
          Ethers.sk_publicKey :=
            "0x0479be667ef9dcbbac55a06295ce870b07029bfcdb2dce28d959f2815b16f81798483ada7726a3c4655da4fbfc0e1108a8fd17b448a68554199c47d08ffb10d4b8" |};
     Ethers.address := "0x7E5F4552091A69125d5DfCb7b8C2659029395Bdf";
     Ethers.mnemonic := None |}.

Definition key_of_one : PrivateKey := {| wallet := wallet_of_one |}.

End Vector.

(** ** The deprecated constructor *)

(** [c.toLowerCase()] on an ASCII character. *)
Definition toLowerCase_char (c : ascii) : ascii :=
  let n := N_of_ascii c in
  if (65 <=? n)%N && (n <=? 90)%N then ascii_of_N (n + 32) else c.

(** [s.toLowerCase()] on an ASCII string. *)
Fixpoint toLowerCase (s : string) : string :=
  match s with
  | EmptyString => EmptyString
  | String c s' => String (toLowerCase_char c) (toLowerCase s')
  end.

Section Legacy.
Context {P : Primitives}.
Import Ethers.
Local Open Scope result_scope.

(** [new Wallet(privateKey)] of ethers on a string: 64 hex digits without
    a prefix are given one; the signing key then takes the string through
    [hexlify], which wants a [0x] hex string of even length and puts it in
    lower case; the rest is as for bytes. *)
Definition Wallet_new_string (privateKey : string) : Result Wallet :=
  let privateKey :=
    if Hex.all_digits privateKey && (String.length privateKey =? 64)%nat
    then "0x" ++ privateKey else privateKey in
  if negb (isHexString privateKey) then Throw InvalidHexData
  else if Nat.odd (String.length privateKey) then Throw InvalidHexData
  else
    let hex := toLowerCase privateKey in
    if negb (hexDataLength hex =? 32)%nat then Throw InvalidPrivateKey
    else
      bytes <- arrayify (HexStr hex) ;;
      pub <- publicKeyOf bytes ;;
      Ok {| _signingKey := {| sk_privateKey := hex; sk_publicKey := pub |};
            address := computeAddress pub;
            mnemonic := None |}.

Definition fromPrivateKey (privateKey : string) : Result PrivateKey :=
  w <- Wallet_new_string privateKey ;; Ok {| wallet := w |}.

End Legacy.

(** ** The cores of the libraries, computed

    The two signers the class reaches are written out, so that they can be
    run and compared: the one of the elliptic library behind the wallet of
    ethers, and the one of libsecp256k1 behind the [secp256k1] package.
    Both are ECDSA over secp256k1 with the nonce of RFC 6979 drawn from
    HMAC-SHA-256; they part in what they seed the nonce with.  Beside them
    stand keccak-256 and the mixed-case checksum, from which ethers makes
    an address. *)

(** The bytes of an ASCII string. *)
Fixpoint ascii_bytes (s : string) : list byte :=
  match s with
  | EmptyString => []
  | String c s' => byte_of_ascii c :: ascii_bytes s'
  end.

(** *** SHA-256 and HMAC (FIPS 180-4, RFC 2104) *)

Module Sha256.
Local Open Scope N_scope.

Definition mask : N := 0xFFFFFFFF.
Definition add32 (x y : N) : N := N.land (x + y) mask.
Definition rotr (k x : N) : N :=
  N.lor (N.shiftr x k) (N.land (N.shiftl x (32 - k)) mask).
Definition xor3 (x y z : N) : N := N.lxor (N.lxor x y) z.
Definition Ch (x y z : N) : N := N.lxor (N.land x y) (N.land (N.lxor x mask) z).
Definition Maj (x y z : N) : N := xor3 (N.land x y) (N.land x z) (N.land y z).
Definition Sigma0 (x : N) : N := xor3 (rotr 2 x) (rotr 13 x) (rotr 22 x).
Definition Sigma1 (x : N) : N := xor3 (rotr 6 x) (rotr 11 x) (rotr 25 x).
Definition sigma0 (x : N) : N := xor3 (rotr 7 x) (rotr 18 x) (N.shiftr x 3).
Definition sigma1 (x : N) : N := xor3 (rotr 17 x) (rotr 19 x) (N.shiftr x 10).

(** The constants are fractional parts of roots of the first primes. *)
Definition is_prime (p : nat) : bool :=
  forallb (fun d => negb (p mod d =? 0)%nat) (seq 2 (p - 2)).

Definition primes : list N := map N.of_nat (filter is_prime (seq 2 310)).

(** The integer cube root of [n], found bit by bit from [2 ^ bits] down. *)
Fixpoint cube_root (bits : nat) (n x : N) : N :=
  match bits with
  | O => x
  | S bits' =>
      let y := x + 2 ^ N.of_nat bits' in
      cube_root bits' n (if y * y * y <=? n then y else x)
  end.

(** The first 32 bits behind the point of the cube roots of the first 64
    primes. *)
Definition K : list N :=
  Eval vm_compute in map (fun p => cube_root 36 (p * 2 ^ 96) 0 mod 2 ^ 32) primes.

Definition State : Type := N * N * N * N * N * N * N * N.

(** The first 32 bits behind the point of the square roots of the first 8
    primes. *)
Definition H0 : State :=
  Eval vm_compute in
    match map (fun p => N.sqrt (p * 2 ^ 64) mod 2 ^ 32) (firstn 8 primes) with
    | [a; b; c; d; e; f; g; h] => (a, b, c, d, e, f, g, h)
    | _ => (0, 0, 0, 0, 0, 0, 0, 0)
    end.

(** The first [k] big-endian 32-bit words of a block. *)
Fixpoint words (k : nat) (bs : list byte) : list N :=
  match k with
  | O => []
  | S k' => Hex.be_to_N (firstn 4 bs) :: words k' (skipn 4 bs)
  end.

(** [k] more words of the message schedule; [w] holds the words so far,
    the latest first. *)
Fixpoint extend (k : nat) (w : list N) : list N :=
  match k with
  | O => w
  | S k' =>
      extend k' (add32 (add32 (sigma1 (nth 1 w 0)) (nth 6 w 0))
                       (add32 (sigma0 (nth 14 w 0)) (nth 15 w 0)) :: w)
  end.

Definition schedule (block : list byte) : list N :=
  rev (extend 48 (rev (words 16 block))).

Definition round (st : State) (kw : N * N) : State :=
  let '(a, b, c, d, e, f, g, h) := st in
  let t1 := add32 (add32 (add32 h (Sigma1 e)) (Ch e f g)) (add32 (fst kw) (snd kw)) in
  let t2 := add32 (Sigma0 a) (Maj a b c) in
  (add32 t1 t2, a, b, c, add32 d t1, e, f, g).

Definition compress (st : State) (block : list byte) : State :=
  let '(a, b, c, d, e, f, g, h) := st in
  let '(a', b', c', d', e', f', g', h') :=
    fold_left round (combine K (schedule block)) st in
  (add32 a a', add32 b b', add32 c c', add32 d d',
   add32 e e', add32 f f', add32 g g', add32 h h').

Definition pad (msg : list byte) : list byte :=
  let len := List.length msg in
  (msg ++ [x80] ++ repeat x00 ((64 - (len + 9) mod 64) mod 64)
       ++ Hex.be_bytes 8 (8 * N.of_nat len))%list.

Fixpoint blocks (k : nat) (bs : list byte) : list (list byte) :=
  match k with
  | O => []
  | S k' => firstn 64 bs :: blocks k' (skipn 64 bs)
  end.

Definition hash (msg : list byte) : list byte :=
  let padded := pad msg in
  let '(a, b, c, d, e, f, g, h) :=
    fold_left compress (blocks (List.length padded / 64) padded) H0 in
  flat_map (Hex.be_bytes 4) [a; b; c; d; e; f; g; h].

Definition xor_byte (a b : byte) : byte :=
  Hex.byte_of_N (N.lxor (Byte.to_N a) (Byte.to_N b)).

Definition hmac (key msg : list byte) : list byte :=
  let key := if (64 <? List.length key)%nat then hash key else key in
  let key := (key ++ repeat x00 (64 - List.length key))%list in
  hash (map (xor_byte x5c) key ++ hash (map (xor_byte x36) key ++ msg))%list.

End Sha256.

(** *** Keccak-256 *)

Module Keccak.
Local Open Scope N_scope.

Definition mask : N := 0xFFFFFFFFFFFFFFFF.

Definition rotl (k x : N) : N :=
  N.lor (N.land (N.shiftl x k) mask) (N.shiftr x (64 - k)).

Definition RC : list N :=
  [0x0000000000000001; 0x0000000000008082; 0x800000000000808A; 0x8000000080008000;
   0x000000000000808B; 0x0000000080000001; 0x8000000080008081; 0x8000000000008009;
   0x000000000000008A; 0x0000000000000088; 0x0000000080008009; 0x000000008000000A;
   0x000000008000808B; 0x800000000000008B; 0x8000000000008089; 0x8000000000008003;
   0x8000000000008002; 0x8000000000000080; 0x000000000000800A; 0x800000008000000A;
   0x8000000080008081; 0x8000000000008080; 0x0000000080000001; 0x8000000080008008].

(** The rotation of lane [(x, y)], at index [x + 5 * y]. *)
Definition offsets : list N :=
  [ 0;  1; 62; 28; 27;
   36; 44;  6; 55; 20;
    3; 10; 43; 25; 39;
   41; 45; 15; 21;  8;
   18;  2; 61; 56; 14].

(** The state: 25 lanes of 64 bits, lane [(x, y)] at index [x + 5 * y]. *)
Definition lane (A : list N) (x y : nat) : N := nth (x mod 5 + 5 * (y mod 5)) A 0.

Definition lanes (f : nat -> nat -> N) : list N :=
  map (fun i => f (i mod 5) (i / 5))%nat (seq 0 25).

Definition theta (A : list N) : list N :=
  let C := map (fun x => N.lxor (N.lxor (N.lxor (N.lxor (lane A x 0) (lane A x 1))
                                                (lane A x 2)) (lane A x 3)) (lane A x 4))
               (seq 0 5) in
  let D := map (fun x => N.lxor (nth ((x + 4) mod 5) C 0) (rotl 1 (nth ((x + 1) mod 5) C 0)))
               (seq 0 5) in
  lanes (fun x y => N.lxor (lane A x y) (nth x D 0)).

Definition rho_pi (A : list N) : list N :=
  lanes (fun x y =>
           let x' := ((x + 3 * y) mod 5)%nat in
           rotl (nth (x' + 5 * x) offsets 0) (lane A x' x)).

Definition chi (B : list N) : list N :=
  lanes (fun x y =>
           N.lxor (lane B x y)
                  (N.land (N.lxor (lane B (x + 1) y) mask) (lane B (x + 2) y))).

Definition iota (rc : N) (A : list N) : list N :=
  match A with
  | a :: A' => N.lxor a rc :: A'
  | [] => []
  end.

Definition round (A : list N) (rc : N) : list N := iota rc (chi (rho_pi (theta A))).

Definition permute (A : list N) : list N := fold_left round RC A.

(** The rate of Keccak-256, in bytes. *)
Definition rate : nat := 136.

Definition pad (msg : list byte) : list byte :=
  let k := (rate - List.length msg mod rate)%nat in
  match k with
  | 1%nat => (msg ++ [x81])%list
  | _ => (msg ++ [x01] ++ repeat x00 (k - 2) ++ [x80])%list
  end.

(** The first [k] little-endian 64-bit words of a block. *)
Fixpoint le_words (k : nat) (bs : list byte) : list N :=
  match k with
  | O => []
  | S k' => Hex.be_to_N (rev (firstn 8 bs)) :: le_words k' (skipn 8 bs)
  end.

Fixpoint xor_into (A ws : list N) : list N :=
  match A, ws with
  | a :: A', w :: ws' => N.lxor a w :: xor_into A' ws'
  | _, _ => A
  end.

Fixpoint absorb (k : nat) (bs : list byte) (A : list N) : list N :=
  match k with
  | O => A
  | S k' =>
      absorb k' (skipn rate bs) (permute (xor_into A (le_words (rate / 8) (firstn rate bs))))
  end.

Definition keccak256 (msg : list byte) : list byte :=
  let padded := pad msg in
  let A := absorb (List.length padded / rate) padded (repeat 0 25) in
  flat_map (fun w => rev (Hex.be_bytes 8 w)) (firstn 4 A).

End Keccak.

(** *** The address of a public key *)

Module Checksum.

Definition upper (c : ascii) : ascii :=
  let n := N_of_ascii c in
  if (97 <=? n)%N && (n <=? 102)%N then ascii_of_N (n - 32) else c.

(** The mixed-case checksum (EIP-55): a letter goes to upper case where
    the hash of the lower-case digits has a digit of 8 or more at the same
    place. *)
Fixpoint checksum_case (digits hash : string) : string :=
  match digits, hash with
  | String c digits', String h hash' =>
      String (match Hex.digit h with
              | Some v => if (8 <=? v)%N then upper c else c
              | None => c
              end) (checksum_case digits' hash')
  | _, _ => digits
  end.

(** [getAddress] of ethers on the 20 bytes of an address. *)
Definition getAddress (bytes20 : list byte) : string :=
  let digits := Hex.encode bytes20 in
  "0x" ++ checksum_case digits (Hex.encode (Keccak.keccak256 (ascii_bytes digits))).

(** [computeAddress] of ethers on an uncompressed public key in hex: the
    last 20 bytes of the hash of the key without its first byte. *)
Definition computeAddress (publicKey : string) : string :=
  getAddress (skipn 12 (Keccak.keccak256 (skipn 1 (Hex.decode (JS.slice 2 publicKey))))).

End Checksum.

(** *** The group of secp256k1 *)

Module Curve.
Local Open Scope N_scope.

(** An element of the field, as a big number. *)
Definition F : Type := BigN.BigN.t.

Definition p : N := 2 ^ 256 - 2 ^ 32 - 977.
Definition Gx : N := 0x79BE667EF9DCBBAC55A06295CE870B07029BFCDB2DCE28D959F2815B16F81798.
Definition Gy : N := 0x483ADA7726A3C4655DA4FBFC0E1108A8FD17B448A68554199C47D08FFB10D4B8.

Definition modulus : F := Eval vm_compute in BigN.BigN.of_N p.

Definition fmul (a b : F) : F := BigN.BigN.modulo (BigN.BigN.mul a b) modulus.
Definition fsub (a b : F) : F :=
  BigN.BigN.modulo (BigN.BigN.sub (BigN.BigN.add a modulus) b) modulus.
Definition small (k : N) : F := BigN.BigN.of_N k.

Fixpoint fpow (a : F) (e : positive) : F :=
  match e with
  | xH => a
  | xO e' => let h := fpow a e' in fmul h h
  | xI e' => let h := fpow a e' in fmul (fmul h h) a
  end.

(** The inverse in the field, by Fermat's little theorem. *)
Definition finv (a : F) : F :=
  match p - 2 with
  | Npos e => fpow a e
  | N0 => a
  end.

(** Jacobian coordinates: [(X, Y, Z)] stands for the affine point
    [(X / Z^2, Y / Z^3)], and [Z = 0] for the point at infinity. *)
Definition Jacobian : Type := F * F * F.

Definition double (P : Jacobian) : Jacobian :=
  let '(X, Y, Z) := P in
  let YY := fmul Y Y in
  let S := fmul (small 4) (fmul X YY) in
  let M := fmul (small 3) (fmul X X) in
  let X' := fsub (fmul M M) (fmul (small 2) S) in
  (X', fsub (fmul M (fsub S X')) (fmul (small 8) (fmul YY YY)),
   fmul (small 2) (fmul Y Z)).

(** [P + (x2, y2)], the second point affine and not at infinity. *)
Definition add (P : Jacobian) (x2 y2 : F) : Jacobian :=
  let '(X1, Y1, Z1) := P in
  if BigN.BigN.eqb Z1 BigN.BigN.zero then (x2, y2, BigN.BigN.one)
  else
    let ZZ := fmul Z1 Z1 in
    let H := fsub (fmul x2 ZZ) X1 in
    let R := fsub (fmul y2 (fmul Z1 ZZ)) Y1 in
    if BigN.BigN.eqb H BigN.BigN.zero then
      if BigN.BigN.eqb R BigN.BigN.zero then double P
      else (BigN.BigN.one, BigN.BigN.one, BigN.BigN.zero)
    else
      let HH := fmul H H in
      let HHH := fmul H HH in
      let V := fmul X1 HH in
      let X3 := fsub (fsub (fmul R R) HHH) (fmul (small 2) V) in
      (X3, fsub (fmul R (fsub V X3)) (fmul Y1 HHH), fmul H Z1).

(** [k] times the point [(x, y)], by doubling and adding from the top bit
    of [k] down. *)
Fixpoint mul_pos (k : positive) (x y : F) : Jacobian :=
  match k with
  | xH => (x, y, BigN.BigN.one)
  | xO k' => double (mul_pos k' x y)
  | xI k' => add (double (mul_pos k' x y)) x y
  end.

(** A point in affine coordinates, or the point at infinity. *)
Inductive Point : Type :=
| Infinity
| Affine (x y : N).

Definition G : Point := Affine Gx Gy.

Definition affine (P : Jacobian) : Point :=
  let '(X, Y, Z) := P in
  if BigN.BigN.eqb Z BigN.BigN.zero then Infinity
  else
    let i := finv Z in
    let ii := fmul i i in
    Affine (BigN.BigN.to_N (fmul X ii)) (BigN.BigN.to_N (fmul Y (fmul i ii))).

Definition mul (k : N) (P : Point) : Point :=
  match k, P with
  | Npos k', Affine x y => affine (mul_pos k' (BigN.BigN.of_N x) (BigN.BigN.of_N y))
  | _, _ => Infinity
  end.

Definition order : F := Eval vm_compute in BigN.BigN.of_N secp256k1_n.

Fixpoint npow (a : F) (e : positive) : F :=
  match e with
  | xH => a
  | xO e' =>
      let h := npow a e' in BigN.BigN.modulo (BigN.BigN.mul h h) order
  | xI e' =>
      let h := npow a e' in
      BigN.BigN.modulo
        (BigN.BigN.mul (BigN.BigN.modulo (BigN.BigN.mul h h) order) a) order
  end.

(** The inverse of [k] modulo the group order. *)
Definition inverse (k : N) : N :=
  match secp256k1_n - 2 with
  | Npos e => BigN.BigN.to_N (npow (BigN.BigN.of_N k) e)
  | N0 => k
  end.

(** The ECDSA equations for the scalar [d], the digest value [z] and the
    nonce [k]: [r] is the first coordinate of [k G] modulo the order,
    [s = (z + r d) / k]; a zero [r] or [s] is no signature.  The recovery
    id tells the parity of the second coordinate and whether the first was
    reduced; [s] is brought into the lower half, which flips the parity. *)
Definition sign_with_nonce (d z k : N) : option (N * N * N) :=
  match mul k G with
  | Infinity => None
  | Affine x y =>
      let r := x mod secp256k1_n in
      if r =? 0 then None
      else
        let s := (inverse k * (z + r * d)) mod secp256k1_n in
        if s =? 0 then None
        else
          let recid := (if N.odd y then 1 else 0) + (if secp256k1_n <=? x then 2 else 0) in
          if secp256k1_n / 2 <? s
          then Some (r, secp256k1_n - s, N.lxor recid 1)
          else Some (r, s, recid)
  end.

End Curve.

(** *** The nonce of RFC 6979 *)

Module Rfc6979.

(** The key and the value of the HMAC generator. *)
Definition State : Type := list byte * list byte.

Definition update (tag : byte) (data : list byte) (st : State) : State :=
  let '(K, V) := st in
  let K' := Sha256.hmac K (V ++ [tag] ++ data)%list in
  (K', Sha256.hmac K' V).

(** A new generator, seeded with [data]: nothing else goes into it. *)
Definition init (data : list byte) : State :=
  update x01 data (update x00 data (repeat x00 32, repeat x01 32)).

Definition generate (st : State) : State :=
  let '(K, V) := st in (K, Sha256.hmac K V).

(** The first candidate a generator gives. *)
Definition candidate (st : State) : N := Hex.be_to_N (snd (generate st)).

(** Candidates are drawn until one is accepted. *)
Fixpoint search {A : Type} (fuel : nat) (accept : N -> option A) (st : State)
  : option A :=
  match fuel with
  | O => None
  | S fuel' =>
      let st' := generate st in
      match accept (Hex.be_to_N (snd st')) with
      | Some a => Some a
      | None => search fuel' accept (update x00 [] st')
      end
  end.

End Rfc6979.

(** How many candidates the embedding of the loops looks at; the loops of
    the libraries have no bound. *)
Definition attempts : nat := 16.

Definition finished (r : option (N * N * N)) : N * N * N :=
  match r with
  | Some sig => sig
  | None => (0, 0, 0)%N
  end.

(** *** The two signers *)

(** [ec.sign(digest, key, { canonical: true })] of the elliptic library,
    which the signing key of ethers calls; third-party code, not among the
    sources, written out as the library computes it.  The digest is read
    as a number and brought below the group order; the generator is seeded
    with the scalar and with that number, each on 32 bytes; a candidate
    [k] must satisfy [1 < k < n - 1]. *)
Module Elliptic.
Local Open Scope N_scope.

Definition truncateToN (z : N) : N :=
  if secp256k1_n <=? z then z - secp256k1_n else z.

Definition accept (d msg k : N) : option (N * N * N) :=
  if (k <=? 1) || (secp256k1_n - 1 <=? k) then None
  else Curve.sign_with_nonce d msg k.

Definition sign (d : N) (digest : list byte) : N * N * N :=
  let msg := truncateToN (Hex.be_to_N digest) in
  let bkey := Hex.be_bytes 32 d in
  let nonce := Hex.be_bytes 32 msg in
  finished (Rfc6979.search attempts (accept d msg) (Rfc6979.init (bkey ++ nonce)%list)).

(** [keyFromPrivate(bytes).getPublic(false, 'hex')] behind [0x]: the scalar
    is reduced modulo the order, and the point is printed uncompressed;
    the point at infinity cannot be printed. *)
Definition publicKey (key : list byte) : Result string :=
  match Curve.mul (Hex.be_to_N key mod secp256k1_n) Curve.G with
  | Curve.Infinity => Throw (LibraryError "point at infinity")
  | Curve.Affine x y =>
      Ok ("0x04" ++ Hex.encode (Hex.be_bytes 32 x) ++ Hex.encode (Hex.be_bytes 32 y))
  end.

End Elliptic.

(** The signing of libsecp256k1 with its default nonce function, which
    the [secp256k1] package calls; third-party code, not among the
    sources, written out as the library computes it.  The generator is
    seeded with the 32 bytes of the key and the 32 bytes of the message as
    they are given; the message is reduced modulo the group order only
    where the equations use it; a candidate [k] must satisfy [0 < k < n]. *)
Module Libsecp256k1.
Local Open Scope N_scope.

Definition accept (d msg k : N) : option (N * N * N) :=
  if (k =? 0) || (secp256k1_n <=? k) then None
  else Curve.sign_with_nonce d msg k.

Definition sign (d : N) (msg32 : list byte) : N * N * N :=
  let msg := Hex.be_to_N msg32 mod secp256k1_n in
  let key32 := Hex.be_bytes 32 d in
  finished (Rfc6979.search attempts (accept d msg) (Rfc6979.init (key32 ++ msg32)%list)).

End Libsecp256k1.

(** *** The class on these cores *)

(** The primitives [P] with another signer. *)
Definition with_signer (P : Primitives) (signer : N -> list byte -> N * N * N)
  : Primitives :=
  {| TypedData := @TypedData P;
     PublicKey := @PublicKey P;
     Address := @Address P;
     DEFAULT_DERIVATION_PATH := @DEFAULT_DERIVATION_PATH P;
     keccak256 := @keccak256 P;
     ecdsa := signer;
     publicKeyOf := @publicKeyOf P;
     computeAddress := @computeAddress P;
     mnemonicValid := @mnemonicValid P;
     deriveSecret := @deriveSecret P;
     eip712Hash := @eip712Hash P;
     PublicKey_fromHex := @PublicKey_fromHex P;
     Address_fromHex := @Address_fromHex P;
     Address_toBech32 := @Address_toBech32 P |}.

(** What the methods of the wallet run on, and what the calls to the
    [secp256k1] package run on. *)
Definition wallet_side (P : Primitives) : Primitives := with_signer P Elliptic.sign.
Definition primitive_side (P : Primitives) : Primitives := with_signer P Libsecp256k1.sign.

(** The cores above as an instance.  The phrase, the typed data and the
    sibling classes are not computed here and stay as in [Sample]. *)
Module Libraries.

Definition primitives : Primitives := {|
  TypedData := list byte;
  PublicKey := string;
  Address := string;
  DEFAULT_DERIVATION_PATH := "m/44'/60'/0'/0/0";
  keccak256 := Keccak.keccak256;
  ecdsa := Elliptic.sign;
  publicKeyOf := Elliptic.publicKey;
  computeAddress := Checksum.computeAddress;
  mnemonicValid := fun phrase => (Sample.words phrase =? 12)%nat;
  deriveSecret := Sample.derive;
  eip712Hash := fun data => Ok (Keccak.keccak256 (x19 :: x01 :: data));
  PublicKey_fromHex := fun s => s;
  Address_fromHex := fun s => s;
  Address_toBech32 := fun s => "inj" ++ s
|}.

(** The same with the signer of libsecp256k1. *)
Definition native : Primitives := primitive_side primitives.

(** The 32 bytes [0x0707..07], below the group order, and [0xffff..ff],
    above it. *)
Definition sevens : list byte := repeat x07 32.
Definition top : list byte := repeat xff 32.

(** The instance [fromHex] builds from the secret [0x0101..01]. *)
Definition key : PrivateKey :=
  {| wallet :=
       {| Ethers._signingKey :=
            {| Ethers.sk_privateKey :=
                 "0x0101010101010101010101010101010101010101010101010101010101010101";
               Ethers.sk_publicKey :=
                 "0x041b84c5567b126440995d3ed5aaba0565d71e1834604819ff9c17f5e9d5dd078f70beaf8f588b541507fed6a642c5ab42dfdf8120a7f639de5122d47a69a8e8d1" |};
          Ethers.address := "0x1a642f0E3c3aF545E7AcBD38b07251B3990914F1";
          Ethers.mnemonic := None |} |}.

(** The instance [fromHex] builds from the 32 bytes [0xffff..ff]. *)
Definition wide_key : PrivateKey :=
  {| wallet :=
       {| Ethers._signingKey :=
            {| Ethers.sk_privateKey :=
                 "0xffffffffffffffffffffffffffffffffffffffffffffffffffffffffffffffff";
               Ethers.sk_publicKey :=
                 "0x049166c289b9f905e55f9e3df9f69d7f356b4a22095f894f4715714aa4b56606aff181eb966be4acb5cff9e16b66d809be94e214f06c93fd091099af98499255e7" |};
          Ethers.address := "0xb92702b3EeFB3c2049aEB845B0335b283e11E9c6";
          Ethers.mnemonic := None |} |}.

End Libraries.

(** ** The Ledger transport

    [LedgerTransport] keeps at most one Ledger application object and one
    account manager, and finds a transport through the browser's WebHID or
    WebUSB interface. *)

Module Ledger.

Inductive Kind : Type := WebHID | WebUSB.

(** A transport object: which interface opened it, on which device. *)
Record Transport : Type := { kind : Kind; device : nat }.

(** An entry of [TransportWebHID.list()]. *)
Record HIDDevice : Type := { deviceId : nat; opened : bool }.

(** [new TransportWebHID(d)] *)
Definition TransportWebHID_new (d : HIDDevice) : Transport :=
  {| kind := WebHID; device := deviceId d |}.

(** [new EthereumApp(transport)] *)
Record EthereumApp : Type := { transport : Transport }.

(** The context [getInstance] gives its exception: unspecified code,
    wallet error, module [GetInstance]. *)
Record ErrorContext : Type := { contextModule : string }.

Definition GetInstanceContext : ErrorContext := {| contextModule := "GetInstance" |}.

(** What is thrown: the rejection of a browser call, or a
    [LedgerException] made from a message, with or without a context. *)
Inductive Thrown : Type :=
| Rejection (message : string)
| LedgerException (message : string) (context : option ErrorContext).

(** The classes of this repository that the transport imports and that are
    not among the sources: the account manager built over an application
    object, and the message a [LedgerException] shows for the message it
    was made from. *)
Class Collaborators : Type := {
  AccountManager : Type;
  AccountManager_new : EthereumApp -> AccountManager;
  exceptionMessage : string -> string
}.

(** [(e as any).message] *)
Definition message_of {C : Collaborators} (e : Thrown) : string :=
  match e with
  | Rejection m => m
  | LedgerException m _ => exceptionMessage m
  end.

(** How a promise of the browser settles. *)
Inductive Outcome (A : Type) : Type :=
| Resolved (a : A)
| Rejected (message : string).

Arguments Resolved {A} a.
Arguments Rejected {A} message.

(** The browser at the time of a call: how each static method of the two
    transports would settle. *)
Record Browser : Type := {
  hid_isSupported : Outcome bool;
  hid_list : Outcome (list HIDDevice);
  hid_openConnected : Outcome (option Transport);
  hid_request : Outcome Transport;
  usb_isSupported : Outcome bool;
  usb_openConnected : Outcome (option Transport);
  usb_request : Outcome Transport
}.

Inductive Api : Type :=
| HID_isSupported | HID_list | HID_openConnected | HID_request
| USB_isSupported | USB_openConnected | USB_request.

Definition is_usb (a : Api) : bool :=
  match a with
  | USB_isSupported | USB_openConnected | USB_request => true
  | _ => false
  end.

(** The message with which the browser rejects a call, if it does. *)
Definition rejection (env : Browser) (a : Api) : option string :=
  let message {A : Type} (o : Outcome A) : option string :=
    match o with
    | Resolved _ => None
    | Rejected m => Some m
    end in
  match a with
  | HID_isSupported => message (hid_isSupported env)
  | HID_list => message (hid_list env)
  | HID_openConnected => message (hid_openConnected env)
  | HID_request => message (hid_request env)
  | USB_isSupported => message (usb_isSupported env)
  | USB_openConnected => message (usb_openConnected env)
  | USB_request => message (usb_request env)
  end.

Inductive Attempt (A : Type) : Type :=
| Done (a : A)
| Raised (e : Thrown).

Arguments Done {A} a.
Arguments Raised {A} e.

(** An asynchronous computation: it reads the browser, and yields the
    calls it made, in order, and how it ended. *)
Definition IO (A : Type) : Type := Browser -> list Api * Attempt A.

Definition pure {A : Type} (a : A) : IO A := fun _ => ([], Done a).

Definition throw {A : Type} (e : Thrown) : IO A := fun _ => ([], Raised e).

Definition bind {A B : Type} (m : IO A) (k : A -> IO B) : IO B :=
  fun env =>
    match m env with
    | (log, Done a) => let (log', r) := k a env in ((log ++ log')%list, r)
    | (log, Raised e) => (log, Raised e)
    end.

(** [await api()] *)
Definition await {A : Type} (api : Api) (settle : Browser -> Outcome A) : IO A :=
  fun env =>
    ([api], match settle env with
            | Resolved a => Done a
            | Rejected m => Raised (Rejection m)
            end).

(** [try { m } catch (e) { h e }] *)
Definition try_catch {A : Type} (m : IO A) (h : Thrown -> IO A) : IO A :=
  fun env =>
    match m env with
    | (log, Done a) => (log, Done a)
    | (log, Raised e) => let (log', r) := h e env in ((log ++ log')%list, r)
    end.

(** [p.catch(() => null)] *)
Definition catch_null {A : Type} (m : IO (option A)) : IO (option A) :=
  try_catch m (fun _ => pure None).

Declare Scope io_scope.
Delimit Scope io_scope with io.
Notation "x <- m ;; k" := (bind m (fun x => k))
  (at level 61, m at next level, right associativity) : io_scope.

Local Open Scope io_scope.

(** The lines both branches of [getTransport] share: an already connected
    device if [openConnected] finds one (its failure counts as none),
    otherwise [request].  [Some] is a [return] from inside the [try]. *)
Definition existingOrRequest
  (open_api request_api : Api)
  (openConnected : Browser -> Outcome (option Transport))
  (request : Browser -> Outcome Transport) : IO (option Transport) :=
  existing <- catch_null (await open_api openConnected) ;;
  match existing with
  | Some t => pure (Some t)
  | None => t <- await request_api request ;; pure (Some t)
  end.

(** The body of the [try] block of [getTransport]; [None] when control
    leaves the block without a [return]. *)
Definition getTransport_try : IO (option Transport) :=
  hid <- await HID_isSupported hid_isSupported ;;
  if (hid : bool) then
    list <- await HID_list hid_list ;;
    match list with
    | d :: _ =>
        if opened d then pure (Some (TransportWebHID_new d))
        else existingOrRequest HID_openConnected HID_request hid_openConnected hid_request
    | [] => existingOrRequest HID_openConnected HID_request hid_openConnected hid_request
    end
  else
    usb <- await USB_isSupported usb_isSupported ;;
    if (usb : bool) then
      existingOrRequest USB_openConnected USB_request usb_openConnected usb_request
    else pure None.

Section Methods.
Context {C : Collaborators}.

Definition getTransport : IO Transport :=
  found <- try_catch getTransport_try
             (fun e => throw (LedgerException (message_of e) None)) ;;
  match found with
  | Some t => pure t
  | None => await USB_request usb_request
  end.

(** An instance: its two private fields. *)
Record LedgerTransport : Type := {
  ledger : option EthereumApp;
  accountManager : option AccountManager
}.


(** A method: run on an instance in a browser, it yields the calls it
    made and how it ended, and the instance it leaves. *)
Definition Method (A : Type) : Type :=
  LedgerTransport -> Browser -> (list Api * Attempt A) * LedgerTransport.

Definition getInstance : Method EthereumApp :=
  fun this env =>
    match ledger this with
    | Some app => (([], Done app), this)
    | None =>
        match getTransport env with
        | (log, Done t) =>
            let app := {| transport := t |} in
            ((log, Done app),
             {| ledger := Some app; accountManager := accountManager this |})
        | (log, Raised e) =>
            ((log, Raised (LedgerException (message_of e) (Some GetInstanceContext))),
             this)
        end
    end.


Definition getAccountManager : Method AccountManager :=
  fun this env =>
    match accountManager this with
    | Some am => (([], Done am), this)
    | None =>
        match getInstance this env with
        | ((log, Done app), this') =>
            let am := AccountManager_new app in
            ((log, Done am), {| ledger := ledger this'; accountManager := Some am |})
        | ((log, Raised e), this') => ((log, Raised e), this')
        end
    end.

(** *** Calls that overlap

    A call runs up to its first [await] and goes on when what it waits for
    has settled; in between, other calls and the disconnect handler may
    run.  A call that finds its cache filled has nothing to wait for (the
    [await] of a [getInstance] that returned from the cache is over before
    the browser can do anything).  Any other call waits for
    [getTransport], which touches no field of the instance; when that has
    settled, the rest of the method body runs in one go.  So all that a
    suspended call carries is which method it is. *)
Inductive Pending : Type :=
| InstancePending   (* getInstance, past its test of [this.ledger] *)
| ManagerPending    (* getAccountManager, past both tests *).

(** An instance and the calls suspended on it, the oldest first. *)
Record Flight : Type := {
  instance : LedgerTransport;
  waiting : list Pending
}.


(** A call of [getInstance], up to its [await]. *)
Definition begin_getInstance (w : Flight) : Flight :=
  match ledger (instance w) with
  | Some _ => w
  | None => {| instance := instance w; waiting := (waiting w ++ [InstancePending])%list |}
  end.

(** A call of [getAccountManager], up to the [await] of [getTransport]. *)
Definition begin_getAccountManager (w : Flight) : Flight :=
  match accountManager (instance w) with
  | Some _ => w
  | None =>
      match ledger (instance w) with
      | Some app =>
          {| instance := {| ledger := Some app;
                            accountManager := Some (AccountManager_new app) |};
             waiting := waiting w |}
      | None => {| instance := instance w; waiting := (waiting w ++ [ManagerPending])%list |}
      end
  end.

(** The rest of a suspended call, given how [getTransport] ended: the
    assignments are made without a second look at the fields. *)
Definition resume (p : Pending) (outcome : Attempt Transport) (this : LedgerTransport)
  : LedgerTransport :=
  match outcome with
  | Raised _ => this
  | Done t =>
      let app := {| transport := t |} in
      match p with
      | InstancePending =>
          {| ledger := Some app; accountManager := accountManager this |}
      | ManagerPending =>
          {| ledger := Some app; accountManager := Some (AccountManager_new app) |}
      end
  end.


Definition settle (k : nat) (env : Browser) (w : Flight) : Flight :=
  match nth_error (waiting w) k with
  | None => w
  | Some p =>
      {| instance := resume p (snd (getTransport env)) (instance w);
         waiting := (firstn k (waiting w) ++ skipn (S k) (waiting w))%list |}
  end.







End Methods.

(** The browser [env] with another answer to [openConnected]. *)
Definition with_hid_openConnected (env : Browser) (o : Outcome (option Transport)) : Browser :=
  {| hid_isSupported := hid_isSupported env; hid_list := hid_list env;
     hid_openConnected := o; hid_request := hid_request env;
     usb_isSupported := usb_isSupported env;
     usb_openConnected := usb_openConnected env; usb_request := usb_request env |}.

Definition with_usb_openConnected (env : Browser) (o : Outcome (option Transport)) : Browser :=
  {| hid_isSupported := hid_isSupported env; hid_list := hid_list env;
     hid_openConnected := hid_openConnected env; hid_request := hid_request env;
     usb_isSupported := usb_isSupported env;
     usb_openConnected := o; usb_request := usb_request env |}.

(** *** A browser and collaborators that compute *)

Definition sampleCollaborators : Collaborators :=
  {| AccountManager := EthereumApp;
     AccountManager_new := fun app => app;
     exceptionMessage := fun m => m |}.





(** WebHID is there, and the user turns the request down. *)
Definition refusingBrowser : Browser :=
  {| hid_isSupported := Resolved true;
     hid_list := Resolved [];
     hid_openConnected := Resolved None;
     hid_request := Rejected "cancelled";
     usb_isSupported := Resolved true;
     usb_openConnected := Resolved None;
     usb_request := Resolved {| kind := WebUSB; device := 3 |} |}.

(** Neither interface is there. *)
Definition bareBrowser : Browser :=
  {| hid_isSupported := Resolved false;
     hid_list := Resolved [];
     hid_openConnected := Resolved None;
     hid_request := Rejected "unsupported";
     usb_isSupported := Resolved false;
     usb_openConnected := Resolved None;
     usb_request := Rejected "unsupported" |}.

End Ledger.

(** * Properties *)

(** ** Hex digits, byte strings and numbers *)

Module HexFacts.
Import Hex.

Lemma digit_char (d : N) : (d < 16)%N -> digit (char d) = Some d.
Proof.
  intros H. destruct d as [|p]; [reflexivity|].
  do 4 (destruct p as [p|p|]; try reflexivity; try lia).
Qed.

Lemma char_lower (d : N) : (d < 16)%N -> lower_digit (char d) = true.
Proof.
  intros H. destruct d as [|p]; [reflexivity|].
  do 4 (destruct p as [p|p|]; try reflexivity; try lia).
Qed.

Lemma digit_bound (c : ascii) (d : N) : digit c = Some d -> (d < 16)%N.
Proof.
  unfold digit. intros H.
  repeat match type of H with
         | (if ?b then _ else _) = _ => destruct b eqn:?
         end; inversion H; subst; clear H;
    repeat match goal with
           | E : (_ && _) = true |- _ => apply andb_prop in E; destruct E
           | E : (_ <=? _)%N = true |- _ => apply N.leb_le in E
           end; lia.
Qed.

Lemma digit_lower_all (c : ascii) :
  match digit c with
  | Some d => Ascii.eqb (char d) (lower c)
  | None => true
  end = true.
Proof. destruct c as [[] [] [] [] [] [] [] []]; reflexivity. Qed.

Lemma digit_lower (c : ascii) (d : N) : digit c = Some d -> char d = lower c.
Proof.
  intros H. pose proof (digit_lower_all c) as Hc. rewrite H in Hc.
  now apply Ascii.eqb_eq.
Qed.

Lemma byte_of_to (b : byte) : byte_of_N (Byte.to_N b) = b.
Proof. unfold byte_of_N. now rewrite Byte.of_to_N. Qed.

Lemma to_byte_of (n : N) : (n < 256)%N -> Byte.to_N (byte_of_N n) = n.
Proof.
  intros H. unfold byte_of_N. destruct (Byte.of_N n) eqn:E.
  - now apply Byte.to_of_N.
  - apply Byte.of_N_None_iff in E. lia.
Qed.

Lemma to_N_lt (b : byte) : (Byte.to_N b < 256)%N.
Proof. pose proof (Byte.to_N_bounded b). lia. Qed.

(** *** [encode] and [decode] *)

Lemma encode_app (a b : list byte) :
  encode (a ++ b)%list = encode a ++ encode b.
Proof. induction a as [|x a IH]; cbn [encode of_byte app append]; [reflexivity|now rewrite IH]. Qed.

Lemma length_encode (bs : list byte) : String.length (encode bs) = (2 * List.length bs)%nat.
Proof.
  induction bs as [|b bs IH]; cbn [encode of_byte String.length List.length]; [reflexivity|].
  rewrite IH. lia.
Qed.

Lemma decode_pair (b : byte) (rest : string) :
  decode (of_byte b rest) = b :: decode rest.
Proof.
  pose proof (to_N_lt b) as Hb.
  unfold of_byte. cbn [decode].
  rewrite !digit_char.
  - f_equal. rewrite <- (byte_of_to b) at 3. f_equal.
    symmetry. apply N.div_mod. lia.
  - apply N.mod_lt. lia.
  - apply N.Div0.div_lt_upper_bound. lia.
Qed.

Lemma decode_encode_app (bs : list byte) (rest : string) :
  decode (encode bs ++ rest) = (bs ++ decode rest)%list.
Proof.
  induction bs as [|b bs IH]; [reflexivity|].
  cbn [encode]. unfold of_byte at 1. cbn [append].
  fold (of_byte b (encode bs ++ rest)).
  rewrite decode_pair, IH. reflexivity.
Qed.

Lemma append_empty (s : string) : s ++ EmptyString = s.
Proof. induction s as [|c s IH]; cbn; [reflexivity|now rewrite IH]. Qed.

Lemma decode_encode (bs : list byte) : decode (encode bs) = bs.
Proof.
  rewrite <- (append_empty (encode bs)), decode_encode_app.
  cbn [decode]. apply app_nil_r.
Qed.

Lemma all_digits_encode (bs : list byte) : all_digits (encode bs) = true.
Proof.
  induction bs as [|b bs IH]; [reflexivity|].
  pose proof (to_N_lt b) as Hb.
  cbn [encode of_byte all_digits]. unfold is_digit.
  rewrite !digit_char, IH; [reflexivity| |].
  - apply N.mod_lt. lia.
  - apply N.Div0.div_lt_upper_bound. lia.
Qed.

Lemma lower_digits_encode (bs : list byte) : lower_digits (encode bs) = true.
Proof.
  induction bs as [|b bs IH]; [reflexivity|].
  pose proof (to_N_lt b) as Hb.
  cbn [encode of_byte lower_digits].
  rewrite !char_lower, IH; [reflexivity| |].
  - apply N.mod_lt. lia.
  - apply N.Div0.div_lt_upper_bound. lia.
Qed.

(** *** Big-endian bytes *)

Lemma be_to_N_snoc (bs : list byte) (b : byte) :
  be_to_N (bs ++ [b])%list = (256 * be_to_N bs + Byte.to_N b)%N.
Proof. unfold be_to_N. now rewrite fold_left_app. Qed.

Lemma length_be_bytes (len : nat) (n : N) : List.length (be_bytes len n) = len.
Proof.
  revert n. induction len as [|len IH]; intros n; cbn [be_bytes]; [reflexivity|].
  rewrite length_app, IH. cbn. lia.
Qed.

Lemma be_bytes_be_to_N (bs : list byte) :
  be_bytes (List.length bs) (be_to_N bs) = bs.
Proof.
  induction bs as [|b bs IH] using rev_ind; [reflexivity|].
  pose proof (to_N_lt b) as Hb.
  rewrite length_app, Nat.add_1_r, be_to_N_snoc. cbn [be_bytes].
  replace ((256 * be_to_N bs + Byte.to_N b) / 256)%N with (be_to_N bs).
  - replace ((256 * be_to_N bs + Byte.to_N b) mod 256)%N with (Byte.to_N b).
    + now rewrite IH, byte_of_to.
    + apply N.mod_unique with (q := be_to_N bs); lia.
  - apply N.div_unique with (r := Byte.to_N b); lia.
Qed.

Lemma be_bytes_unique (len : nat) (n : N) (bs : list byte) :
  List.length bs = len -> be_to_N bs = n -> bs = be_bytes len n.
Proof. intros <- <-. symmetry. apply be_bytes_be_to_N. Qed.

Lemma be_to_N_be_bytes (len : nat) (n : N) :
  be_to_N (be_bytes len n) = (n mod 256 ^ N.of_nat len)%N.
Proof.
  revert n. induction len as [|len IH]; intros n.
  - cbn. now rewrite N.mod_1_r.
  - cbn [be_bytes]. rewrite be_to_N_snoc, IH, to_byte_of by (apply N.mod_lt; lia).
    rewrite Nat2N.inj_succ, N.pow_succ_r'.
    rewrite N.Div0.mod_mul_r. lia.
Qed.

Lemma hd_be_bytes (k : nat) (n : N) (d : byte) :
  hd d (be_bytes (S k) n) = byte_of_N ((n / 256 ^ N.of_nat k) mod 256).
Proof.
  revert n. induction k as [|k IH]; intros n.
  - cbn [be_bytes app hd N.of_nat]. now rewrite N.pow_0_r, N.div_1_r.
  - change (be_bytes (S (S k)) n)
      with (be_bytes (S k) (n / 256) ++ [byte_of_N (n mod 256)])%list.
    pose proof (length_be_bytes (S k) (n / 256)) as Hl.
    destruct (be_bytes (S k) (n / 256)) as [|x xs] eqn:E; [discriminate|].
    cbn [app hd]. change x with (hd d (x :: xs)). rewrite <- E, IH.
    rewrite N.Div0.div_div, Nat2N.inj_succ, N.pow_succ_r'. reflexivity.
Qed.

Lemma top_bit_clear (n : N) :
  (n < 2 ^ 255)%N -> (Byte.to_N (hd x00 (be_bytes 32 n)) < 128)%N.
Proof.
  intros H. rewrite hd_be_bytes.
  assert (Hq : (n / 256 ^ N.of_nat 31 < 128)%N).
  { apply N.Div0.div_lt_upper_bound. exact H. }
  rewrite N.mod_small by lia. rewrite to_byte_of; lia.
Qed.

(** *** The value of a digit string *)

Lemma string_pair_ind (Q : string -> Prop) :
  Q EmptyString ->
  (forall c, Q (String c EmptyString)) ->
  (forall c1 c2 s, Q s -> Q (String c1 (String c2 s))) ->
  forall s, Q s.
Proof.
  intros H0 H1 H2.
  fix self 1. intros [|c1 [|c2 s]]; [exact H0|apply H1|apply H2, self].
Qed.

Lemma decode_value (s : string) :
  all_digits s = true ->
  forall acc, fold_left (fun a b => (256 * a + Byte.to_N b)%N) (decode s) acc
              = value_from acc s
              \/ Nat.even (String.length s) = false.
Proof.
  induction s as [|c|c1 c2 s IH] using string_pair_ind; intros Hd acc.
  - now left.
  - now right.
  - cbn [all_digits] in Hd. unfold is_digit in Hd.
    destruct (digit c1) as [h|] eqn:E1; [|discriminate].
    destruct (digit c2) as [l|] eqn:E2; [|discriminate].
    cbn [andb] in Hd.
    pose proof (digit_bound _ _ E1). pose proof (digit_bound _ _ E2).
    cbn [decode value_from String.length Nat.even]. rewrite E1, E2.
    cbn [fold_left]. rewrite to_byte_of by lia.
    destruct (IH Hd (256 * acc + (16 * h + l))%N) as [-> | ->]; [left|now right].
    f_equal. lia.
Qed.

Lemma be_to_N_decode (s : string) :
  all_digits s = true -> Nat.even (String.length s) = true ->
  be_to_N (decode s) = value s.
Proof.
  intros Hd He. destruct (decode_value s Hd 0%N) as [H|H]; [exact H|congruence].
Qed.

Lemma length_decode (s : string) :
  all_digits s = true ->
  (2 * List.length (decode s) = String.length s)%nat
  \/ Nat.even (String.length s) = false.
Proof.
  induction s as [|c|c1 c2 s IH] using string_pair_ind; intros Hd.
  - now left.
  - now right.
  - cbn [all_digits] in Hd. unfold is_digit in Hd.
    destruct (digit c1) as [h|] eqn:E1; [|discriminate].
    destruct (digit c2) as [l|] eqn:E2; [|discriminate].
    cbn [andb] in Hd.
    cbn [decode String.length Nat.even List.length]. rewrite E1, E2.
    cbn [List.length].
    destruct (IH Hd) as [H|H]; [left; lia|now right].
Qed.

(** *** Printing a number in hex *)

Lemma value_digits_fuel (fuel : nat) :
  forall n acc, (n < 2 ^ N.of_nat fuel)%N ->
                value (digits_fuel fuel n acc) = value_from n acc.
Proof.
  induction fuel as [|fuel IH]; intros n acc Hn.
  - cbn in Hn. assert (n = 0%N) as -> by lia. reflexivity.
  - cbn [digits_fuel]. destruct (N.eqb_spec n 0) as [->|Hz]; [reflexivity|].
    rewrite IH.
    + cbn [value_from]. rewrite digit_char by (apply N.mod_lt; lia).
      f_equal. symmetry. apply N.div_mod. lia.
    + rewrite Nat2N.inj_succ, N.pow_succ_r' in Hn.
      apply N.Div0.div_lt_upper_bound. lia.
Qed.

Lemma value_of_N (n : N) : value (of_N n) = n.
Proof.
  unfold of_N. destruct (N.eqb_spec n 0) as [->|Hz]; [reflexivity|].
  rewrite value_digits_fuel; [reflexivity|].
  rewrite N2Nat.id. apply N.size_gt.
Qed.

Lemma length_digits_fuel (fuel : nat) :
  forall k n acc, (n < 16 ^ N.of_nat k)%N ->
                  (String.length (digits_fuel fuel n acc) <= k + String.length acc)%nat.
Proof.
  induction fuel as [|fuel IH]; intros k n acc Hn; cbn [digits_fuel]; [lia|].
  destruct (N.eqb_spec n 0) as [->|Hz]; [lia|].
  destruct k as [|k]; [cbn in Hn; lia|].
  rewrite Nat2N.inj_succ, N.pow_succ_r' in Hn.
  specialize (IH k (n / 16)%N (String (char (n mod 16)) acc)).
  cbn [String.length] in IH.
  assert (n / 16 < 16 ^ N.of_nat k)%N by (apply N.Div0.div_lt_upper_bound; lia).
  specialize (IH ltac:(assumption)). lia.
Qed.

Lemma length_of_N (n : N) (k : nat) :
  (n < 16 ^ N.of_nat (S k))%N -> (String.length (of_N n) <= S k)%nat.
Proof.
  intros Hn. unfold of_N. destruct (N.eqb_spec n 0) as [->|Hz]; [cbn; lia|].
  pose proof (length_digits_fuel (N.to_nat (N.size n)) (S k) n EmptyString Hn) as H.
  cbn [String.length] in H. lia.
Qed.

Lemma all_digits_fuel (fuel : nat) :
  forall n acc, all_digits acc = true -> all_digits (digits_fuel fuel n acc) = true.
Proof.
  induction fuel as [|fuel IH]; intros n acc Ha; cbn [digits_fuel]; [exact Ha|].
  destruct (N.eqb_spec n 0) as [->|Hz]; [exact Ha|].
  apply IH. cbn [all_digits]. unfold is_digit.
  rewrite digit_char by (apply N.mod_lt; lia). exact Ha.
Qed.

Lemma all_digits_of_N (n : N) : all_digits (of_N n) = true.
Proof.
  unfold of_N. destruct (N.eqb_spec n 0); [reflexivity|].
  now apply all_digits_fuel.
Qed.

(** *** Zero digits in front *)

Lemma length_zeros (k : nat) (s : string) :
  String.length (zeros k s) = (k + String.length s)%nat.
Proof.
  induction k as [|k IH]; [reflexivity|].
  change (zeros (S k) s) with (String "0"%char (zeros k s)).
  cbn [String.length]. now rewrite IH.
Qed.

Lemma value_zeros (k : nat) (s : string) : value (zeros k s) = value s.
Proof. induction k as [|k IH]; [reflexivity|exact IH]. Qed.

Lemma all_digits_zeros (k : nat) (s : string) :
  all_digits s = true -> all_digits (zeros k s) = true.
Proof. intros H. induction k as [|k IH]; [exact H|exact IH]. Qed.

(** A digit string of [2 * len] digits decodes to the [len] big-endian
    bytes of the number it spells. *)
Lemma decode_digits (len : nat) (s : string) :
  all_digits s = true -> String.length s = (2 * len)%nat ->
  decode s = be_bytes len (value s).
Proof.
  intros Hd Hl.
  assert (He : Nat.even (String.length s) = true).
  { rewrite Hl. apply Nat.even_spec. now exists len. }
  apply be_bytes_unique.
  - destruct (length_decode s Hd) as [H|H]; [lia|congruence].
  - now apply be_to_N_decode.
Qed.

(** A number printed in hex and padded on the left to [2 * len] digits
    decodes to its [len]-byte big-endian form. *)
Lemma decode_padded (len : nat) (n : N) :
  (String.length (of_N n) <= 2 * len)%nat ->
  decode (zeros (2 * len - String.length (of_N n)) (of_N n)) = be_bytes len n.
Proof.
  intros Hl. rewrite (decode_digits len).
  - now rewrite value_zeros, value_of_N.
  - apply all_digits_zeros, all_digits_of_N.
  - rewrite length_zeros. lia.
Qed.

End HexFacts.

(** ** The byte helpers of ethers *)

Module EthersFacts.
Import Hex HexFacts Ethers.

Lemma isHexString_0x (t : string) : isHexString ("0x" ++ t) = all_digits t.
Proof. reflexivity. Qed.

Lemma arrayify_0x (len : nat) (t : string) :
  all_digits t = true -> String.length t = (2 * len)%nat ->
  arrayify (HexStr ("0x" ++ t)) = Ok (be_bytes len (value t)).
Proof.
  intros Hd Hl. unfold arrayify. rewrite isHexString_0x, Hd.
  change (JS.slice 2 ("0x" ++ t)) with t.
  replace (Nat.even (String.length t)) with true.
  - now rewrite (decode_digits len).
  - symmetry. rewrite Hl. apply Nat.even_spec. now exists len.
Qed.

Lemma arrayify_hexlify (b : list byte) : arrayify (HexStr (hexlify b)) = Ok b.
Proof.
  unfold hexlify, arrayify. rewrite isHexString_0x, all_digits_encode.
  change (JS.slice 2 ("0x" ++ encode b)) with (encode b).
  replace (Nat.even (String.length (encode b))) with true.
  - now rewrite decode_encode.
  - symmetry. rewrite length_encode. apply Nat.even_spec. now exists (List.length b).
Qed.

Lemma hexDataLength_hexlify (b : list byte) : hexDataLength (hexlify b) = List.length b.
Proof.
  unfold hexDataLength, hexlify.
  change (String.length ("0x" ++ encode b)) with (S (S (String.length (encode b)))).
  rewrite length_encode.
  replace (S (S (2 * List.length b)) - 2)%nat with (List.length b * 2)%nat by lia.
  now rewrite Nat.div_mul.
Qed.

Lemma pad_loop (k : nat) (t : string) :
  Nat.iter k (fun v => "0x0" ++ JS.slice 2 v) ("0x" ++ t) = "0x" ++ zeros k t.
Proof.
  induction k as [|k IH]; [reflexivity|].
  change (Nat.iter (S k) (fun v => "0x0" ++ JS.slice 2 v) ("0x" ++ t))
    with ("0x0" ++ JS.slice 2 (Nat.iter k (fun v => "0x0" ++ JS.slice 2 v) ("0x" ++ t))).
  rewrite IH. reflexivity.
Qed.

Lemma hexZeroPad_0x (len : nat) (t : string) :
  all_digits t = true -> (String.length t <= 2 * len)%nat ->
  hexZeroPad ("0x" ++ t) len = Ok ("0x" ++ zeros (2 * len - String.length t) t).
Proof.
  intros Hd Hl. unfold hexZeroPad. rewrite isHexString_0x, Hd. cbn [negb].
  change (String.length ("0x" ++ t)) with (S (S (String.length t))).
  destruct (Nat.ltb_spec (2 * len + 2) (S (S (String.length t)))) as [H|H]; [lia|].
  rewrite pad_loop. do 3 f_equal. lia.
Qed.

Lemma length_padded (len : nat) (n : N) :
  (String.length (of_N n) <= 2 * len)%nat ->
  String.length (padded len n) = (2 * len)%nat.
Proof. intros H. unfold padded. rewrite length_zeros. lia. Qed.

Lemma all_digits_padded (len : nat) (n : N) : all_digits (padded len n) = true.
Proof. apply all_digits_zeros, all_digits_of_N. Qed.

Lemma value_padded (len : nat) (n : N) : value (padded len n) = n.
Proof. unfold padded. now rewrite value_zeros, value_of_N. Qed.

(** A component printed in hex is padded to the 64 digits of its 32
    big-endian bytes. *)
Lemma hexZeroPad_of_N (n : N) :
  (n < 2 ^ 256)%N ->
  hexZeroPad ("0x" ++ of_N n) 32 = Ok ("0x" ++ padded 32 n).
Proof.
  intros Hn. apply hexZeroPad_0x; [apply all_digits_of_N|].
  apply (length_of_N n 63). exact Hn.
Qed.

Lemma hexZeroPad_padded (n : N) :
  (n < 2 ^ 256)%N ->
  hexZeroPad ("0x" ++ padded 32 n) 32 = Ok ("0x" ++ padded 32 n).
Proof.
  intros Hn.
  assert (Hl : String.length (padded 32 n) = 64%nat).
  { apply (length_padded 32). apply (length_of_N n 63). exact Hn. }
  rewrite hexZeroPad_0x; [|apply all_digits_padded|lia].
  rewrite Hl. reflexivity.
Qed.

Lemma arrayify_padded (n : N) :
  (n < 2 ^ 256)%N ->
  arrayify (HexStr ("0x" ++ padded 32 n)) = Ok (be_bytes 32 n).
Proof.
  intros Hn. rewrite (arrayify_0x 32).
  - now rewrite value_padded.
  - apply all_digits_padded.
  - apply (length_padded 32). apply (length_of_N n 63). exact Hn.
Qed.

Lemma recId_of_v (recid : N) : (recid <= 1)%N -> (recid =? recIdOfV (27 + recid))%N = true.
Proof.
  intros H. assert (recid = 0 \/ recid = 1)%N as [-> | ->] by lia; reflexivity.
Qed.

(** [splitSignature] accepts a canonical signature whose components are
    already padded, and returns them as they are. *)
Lemma splitSignature_canonical (r s recid : N) (v : option N) :
  (r < 2 ^ 256)%N -> (s < 2 ^ 255)%N -> (recid <= 1)%N ->
  v = None \/ v = Some (27 + recid)%N ->
  splitSignature {| like_r := Some ("0x" ++ padded 32 r);
                    like_s := Some ("0x" ++ padded 32 s);
                    like_recoveryParam := Some recid;
                    like_v := v |}
  = Ok {| Ethers.r := "0x" ++ padded 32 r; Ethers.s := "0x" ++ padded 32 s;
          recoveryParam := recid; Ethers.v := (27 + recid)%N |}.
Proof.
  intros Hr Hs Hv Hopt.
  assert (Hs' : (s < 2 ^ 256)%N) by (eapply N.lt_trans; [exact Hs|reflexivity]).
  unfold splitSignature.
  cbn [like_r like_s like_recoveryParam like_v paddedComponent].
  rewrite !isHexString_0x, !all_digits_padded.
  rewrite (hexZeroPad_padded r Hr), (hexZeroPad_padded s Hs').
  destruct Hopt as [-> | ->].
  - cbn [rbind]. rewrite (arrayify_padded s Hs'). cbn [rbind].
    pose proof (top_bit_clear s Hs) as Ht.
    destruct (N.leb_spec 128 (Byte.to_N (hd x00 (be_bytes 32 s)))); [lia|reflexivity].
  - rewrite (recId_of_v recid Hv). cbn [rbind].
    rewrite (arrayify_padded s Hs'). cbn [rbind].
    pose proof (top_bit_clear s Hs) as Ht.
    destruct (N.leb_spec 128 (Byte.to_N (hd x00 (be_bytes 32 s)))); [lia|reflexivity].
Qed.

Lemma concat_padded (r s : N) :
  (r < 2 ^ 256)%N -> (s < 2 ^ 256)%N ->
  concat [HexStr ("0x" ++ padded 32 r); HexStr ("0x" ++ padded 32 s)]
  = Ok (be_bytes 32 r ++ be_bytes 32 s)%list.
Proof.
  intros Hr Hs. cbn [concat].
  rewrite (arrayify_padded r Hr), (arrayify_padded s Hs). cbn [rbind].
  now rewrite app_nil_r.
Qed.

End EthersFacts.

(** ** The class *)

Lemma secp256k1_n_lt : (secp256k1_n < 2 ^ 256)%N.
Proof. reflexivity. Qed.

Lemma secp256k1_half_lt : (secp256k1_n / 2 < 2 ^ 255)%N.
Proof. reflexivity. Qed.

Section Construction.
Context {P : Primitives}.
Import Hex HexFacts Ethers EthersFacts.

Lemma SigningKey_new_inv (key : list byte) (sk : SigningKey) :
  SigningKey_new key = Ok sk ->
  List.length key = 32%nat /\ sk_privateKey sk = hexlify key /\
  publicKeyOf key = Ok (sk_publicKey sk).
Proof.
  unfold SigningKey_new. rewrite hexDataLength_hexlify, arrayify_hexlify.
  destruct (Nat.eqb_spec (List.length key) 32) as [Hl|Hl]; cbn [negb rbind]; [|discriminate].
  destruct (publicKeyOf key) as [pub|e]; cbn [rbind]; [|discriminate].
  intros H. inversion H; subst; clear H. cbn. auto.
Qed.

Lemma Wallet_new_inv (key : list byte) (w : Wallet) :
  Wallet_new key = Ok w ->
  List.length key = 32%nat /\ privateKey w = hexlify key /\
  publicKeyOf key = Ok (sk_publicKey (_signingKey w)) /\
  address w = computeAddress (sk_publicKey (_signingKey w)) /\
  mnemonic w = None.
Proof.
  unfold Wallet_new. destruct (SigningKey_new key) as [sk|e] eqn:E; cbn [rbind]; [|discriminate].
  apply SigningKey_new_inv in E. destruct E as (Hl & Hk & Hp).
  intros H. inversion H; subst; clear H. cbn. auto.
Qed.

Lemma Wallet_new_length (key : list byte) :
  List.length key <> 32%nat -> Wallet_new key = Throw InvalidPrivateKey.
Proof.
  intros Hl. unfold Wallet_new, SigningKey_new. rewrite hexDataLength_hexlify.
  destruct (Nat.eqb_spec (List.length key) 32); [contradiction|reflexivity].
Qed.

Lemma fromHex_inv (secret : Secret) (pk : PrivateKey) :
  fromHex secret = Ok pk ->
  List.length (privateKeyBuff secret) = 32%nat /\ key_of pk (privateKeyBuff secret).
Proof.
  unfold fromHex, key_of.
  destruct (Wallet_new (privateKeyBuff secret)) as [w|e] eqn:E; cbn [rbind]; [|discriminate].
  apply Wallet_new_inv in E. destruct E as (Hl & Hk & _).
  intros H. inversion H; subst; clear H. cbn. auto.
Qed.

Lemma fromMnemonic_inv (words : string) (path : option string) (pk : PrivateKey) :
  fromMnemonic words path = Ok pk ->
  exists b, List.length b = 32%nat /\ key_of pk b.
Proof.
  unfold fromMnemonic, Wallet_fromMnemonic, key_of.
  destruct (mnemonicValid words); cbn [rbind]; [|discriminate].
  destruct (deriveSecret words _) as [b|e]; cbn [rbind]; [|discriminate].
  destruct (Wallet_new b) as [w|e] eqn:E; cbn [rbind]; [|discriminate].
  apply Wallet_new_inv in E. destruct E as (Hl & Hk & _).
  intros H. inversion H; subst; clear H. exists b. cbn. auto.
Qed.

(** The stored key, stripped of its prefix and decoded, is the secret. *)
Lemma stored_key_bytes (pk : PrivateKey) (b : list byte) :
  key_of pk b -> Buffer_from_hex (strip0x (privateKey (wallet pk))) = b.
Proof.
  unfold key_of. intros ->. unfold hexlify, Buffer_from_hex.
  change (strip0x ("0x" ++ encode b)) with (encode b).
  apply decode_encode.
Qed.

End Construction.

Section Signing.
Context {P : Primitives}.
Import Hex HexFacts Ethers EthersFacts.

Hypothesis canonical : canonical_ecdsa P.

Lemma ecdsa_eta (d : N) (h : list byte) :
  ecdsa d h = (ecdsa_r d h, ecdsa_s d h, ecdsa_recid d h).
Proof. unfold ecdsa_r, ecdsa_s, ecdsa_recid. now destruct (ecdsa d h) as [[? ?] ?]. Qed.

Lemma r_bound (d : N) (h : list byte) : (ecdsa_r d h < 2 ^ 256)%N.
Proof.
  destruct (canonical d h) as (Hr & _ & _).
  eapply N.lt_trans; [exact Hr|exact secp256k1_n_lt].
Qed.

Lemma s_bound (d : N) (h : list byte) : (ecdsa_s d h < 2 ^ 255)%N.
Proof.
  destruct (canonical d h) as (_ & Hs & _).
  eapply N.le_lt_trans; [exact Hs|exact secp256k1_half_lt].
Qed.

Lemma s_bound' (d : N) (h : list byte) : (ecdsa_s d h < 2 ^ 256)%N.
Proof. eapply N.lt_trans; [apply s_bound|reflexivity]. Qed.

Lemma recid_bound (d : N) (h : list byte) : (ecdsa_recid d h <= 1)%N.
Proof. now destruct (canonical d h) as (_ & _ & Hv). Qed.

(** The signature object ethers makes of a 32-byte digest. *)
Lemma signDigest_valid (sk : SigningKey) (b h : list byte) :
  sk_privateKey sk = hexlify b -> valid_secret b -> List.length h = 32%nat ->
  signDigest sk (Bytes h)
  = Ok {| r := "0x" ++ padded 32 (ecdsa_r (be_to_N b) h);
          s := "0x" ++ padded 32 (ecdsa_s (be_to_N b) h);
          recoveryParam := ecdsa_recid (be_to_N b) h;
          v := (27 + ecdsa_recid (be_to_N b) h)%N |}.
Proof.
  intros Hk (Hl & Hpos & Hlt) Hh. unfold signDigest.
  rewrite Hk, arrayify_hexlify. cbn [rbind arrayify]. rewrite Hh. cbn [Nat.eqb negb].
  rewrite (N.mod_small _ _ Hlt), ecdsa_eta.
  rewrite (hexZeroPad_of_N _ (r_bound _ _)), (hexZeroPad_of_N _ (s_bound' _ _)).
  cbn [rbind].
  apply splitSignature_canonical;
    [apply r_bound|apply s_bound|apply recid_bound|now left].
Qed.

Lemma signDigest_length (sk : SigningKey) (b h : list byte) :
  sk_privateKey sk = hexlify b -> List.length h <> 32%nat ->
  signDigest sk (Bytes h) = Throw BadDigestLength.
Proof.
  intros Hk Hh. unfold signDigest.
  rewrite Hk, arrayify_hexlify. cbn [rbind arrayify].
  destruct (Nat.eqb_spec (List.length h) 32); [contradiction|reflexivity].
Qed.

(** The wallet path: [signDigest], [splitSignature], [concat], [arrayify]. *)
Lemma wallet_path (pk : PrivateKey) (b h : list byte) :
  key_of pk b -> valid_secret b -> List.length h = 32%nat ->
  returned (signHashed h) pk = Ok (r_s (be_to_N b) h).
Proof.
  intros Hk Hv Hh. unfold returned, signHashed, bind, this_wallet, call.
  cbn [fst snd].
  rewrite (signDigest_valid _ b h Hk Hv Hh). cbn [fst snd].
  unfold like. cbn [r s recoveryParam v].
  rewrite splitSignature_canonical;
    [|apply r_bound|apply s_bound|apply recid_bound|now right].
  cbn [fst snd r s].
  rewrite (concat_padded _ _ (r_bound _ _) (s_bound' _ _)).
  reflexivity.
Qed.

Lemma wallet_path_length (pk : PrivateKey) (b h : list byte) :
  key_of pk b -> List.length h <> 32%nat ->
  returned (signHashed h) pk = Throw BadDigestLength.
Proof.
  intros Hk Hh. unfold returned, signHashed, bind, this_wallet, call.
  cbn [fst snd]. now rewrite (signDigest_length _ b h Hk Hh).
Qed.

(** The primitive called on the secret and a 32-byte digest. *)
Lemma secp256k1_valid (b h : list byte) :
  valid_secret b -> List.length h = 32%nat ->
  secp256k1_ecdsaSign h b = Ok (r_s (be_to_N b) h, ecdsa_recid (be_to_N b) h).
Proof.
  intros (Hl & Hpos & Hlt) Hh. unfold secp256k1_ecdsaSign.
  rewrite Hh, Hl. cbn [Nat.eqb negb].
  destruct (N.eqb_spec (be_to_N b) 0) as [H0|_]; [lia|].
  destruct (N.leb_spec secp256k1_n (be_to_N b)) as [H1|_]; [lia|].
  cbn [orb]. now rewrite ecdsa_eta.
Qed.

Lemma secp256k1_length (b h : list byte) :
  List.length h <> 32%nat -> secp256k1_ecdsaSign h b = Throw Secp256k1Rejected.
Proof.
  intros Hh. unfold secp256k1_ecdsaSign.
  destruct (Nat.eqb_spec (List.length h) 32); [contradiction|reflexivity].
Qed.

(** The primitive path: the stored key decoded, then [ecdsaSign]. *)
Lemma primitive_path (pk : PrivateKey) (b h : list byte) :
  key_of pk b -> valid_secret b -> List.length h = 32%nat ->
  returned (signHashedEcda h) pk = Ok (r_s (be_to_N b) h).
Proof.
  intros Hk Hv Hh. unfold returned, signHashedEcda, bind, this_wallet, call, ret.
  cbn [fst snd].
  rewrite (stored_key_bytes pk b Hk), (secp256k1_valid b h Hv Hh). reflexivity.
Qed.

Lemma primitive_path_length (pk : PrivateKey) (b h : list byte) :
  key_of pk b -> List.length h <> 32%nat ->
  returned (signHashedEcda h) pk = Throw Secp256k1Rejected.
Proof.
  intros Hk Hh. unfold returned, signHashedEcda, bind, this_wallet, call, ret.
  cbn [fst snd].
  now rewrite (stored_key_bytes pk b Hk), (secp256k1_length b h Hh).
Qed.

Lemma sign_is_signHashed (msg : list byte) :
  sign msg = signHashed (keccak256 msg).
Proof. reflexivity. Qed.

Lemma signEcda_is_signHashedEcda (msg : list byte) :
  signEcda msg = signHashedEcda (keccak256 msg).
Proof. reflexivity. Qed.

Lemma length_r_s (d : N) (h : list byte) : List.length (r_s d h) = 64%nat.
Proof. unfold r_s. now rewrite length_app, !length_be_bytes. Qed.

End Signing.

Section TypedData.
Context {P : Primitives}.
Import Hex HexFacts Ethers EthersFacts.

Hypothesis canonical : canonical_ecdsa P.

Lemma decode_v (recid : N) :
  (recid <= 1)%N -> decode (of_N (recid + 27)) = [byte_of_N (recid + 27)].
Proof.
  intros H. assert (recid = 0 \/ recid = 1)%N as [-> | ->] by lia; reflexivity.
Qed.

Lemma firstn_r_s (d : N) (h : list byte) :
  firstn 32 (r_s d h) = be_bytes 32 (ecdsa_r d h).
Proof.
  unfold r_s. rewrite firstn_app, length_be_bytes.
  rewrite firstn_all2 by (rewrite length_be_bytes; lia).
  cbn [Nat.sub firstn]. apply app_nil_r.
Qed.

Lemma skipn_r_s (d : N) (h : list byte) :
  skipn 32 (r_s d h) = be_bytes 32 (ecdsa_s d h).
Proof.
  unfold r_s. rewrite skipn_app, length_be_bytes.
  rewrite skipn_all2 by (rewrite length_be_bytes; lia).
  cbn [Nat.sub skipn app]. reflexivity.
Qed.

(** The typed-data path: the hex string of eth-sig-util, its prefix
    removed, decoded: [r || s] and the byte [v]. *)
Lemma typed_data_path (pk : PrivateKey) (b h : list byte) (data : TypedData) :
  key_of pk b -> valid_secret b ->
  eip712Hash data = Ok h -> List.length h = 32%nat ->
  returned (signTypedData data) pk
  = Ok (r_s (be_to_N b) h ++ [byte_of_N (ecdsa_recid (be_to_N b) h + 27)])%list.
Proof.
  intros Hk Hv He Hh.
  unfold returned, signTypedData, bind, this_wallet, call, ret. cbn [fst snd].
  rewrite (stored_key_bytes pk b Hk). unfold ethSigUtil_signTypedData.
  rewrite He. cbn [rbind]. rewrite (secp256k1_valid b h Hv Hh). cbn [rbind fst snd].
  rewrite firstn_r_s, skipn_r_s.
  change (JS.replace "0x" EmptyString ("0x" ++ ?x)) with x.
  unfold Buffer_from_hex. rewrite !decode_encode_app.
  rewrite decode_v by (now destruct (canonical (be_to_N b) h) as (_ & _ & ?)).
  unfold r_s. now rewrite <- app_assoc.
Qed.

Lemma typed_data_path_throws (pk : PrivateKey) (data : TypedData) (e : exn) :
  eip712Hash data = Throw e -> returned (signTypedData data) pk = Throw e.
Proof.
  intros He.
  unfold returned, signTypedData, bind, this_wallet, call, ret. cbn [fst snd].
  unfold ethSigUtil_signTypedData. now rewrite He.
Qed.

End TypedData.

(** ** Decoding a secret given as a string *)

Section Normalization.
Import Hex HexFacts.

Lemma x_not_digit (h : string) : all_digits h = true -> JS.startsWith "0x" h = false.
Proof.
  destruct h as [|c1 [|c2 h]]; cbn [JS.startsWith all_digits]; intros H.
  - reflexivity.
  - now rewrite andb_false_r.
  - destruct (Ascii.eqb_spec "0"%char c1); [|reflexivity].
    destruct (Ascii.eqb_spec "x"%char c2) as [<-|]; [|reflexivity].
    cbn in H. now rewrite andb_false_r in H.
Qed.

Lemma strip0x_digits (h : string) : all_digits h = true -> strip0x h = h.
Proof. intros H. unfold strip0x. now rewrite (x_not_digit h H). Qed.

Lemma strip0x_0x (t : string) : strip0x ("0x" ++ t) = t.
Proof. reflexivity. Qed.

Lemma decode_stops (h junk : string) :
  all_digits h = true -> Nat.even (String.length h) = true -> stops junk = true ->
  decode (h ++ junk) = decode h.
Proof.
  intros Hd He Hj. revert Hd He.
  induction h as [|c|c1 c2 h IH] using string_pair_ind; intros Hd He.
  - cbn [append decode]. destruct junk as [|j1 [|j2 junk]]; try reflexivity.
    cbn [stops] in Hj. cbn [decode]. unfold is_digit in Hj.
    destruct (digit j1), (digit j2); try reflexivity; discriminate.
  - discriminate.
  - cbn [append decode]. cbn [String.length Nat.even] in He.
    cbn [all_digits] in Hd.
    destruct (is_digit c1); [|discriminate]. destruct (is_digit c2); [|discriminate].
    cbn [andb] in Hd. now rewrite (IH Hd He).
Qed.

Lemma encode_decode (h : string) :
  all_digits h = true -> Nat.even (String.length h) = true ->
  encode (decode h) = lowercase h.
Proof.
  induction h as [|c|c1 c2 h IH] using string_pair_ind; intros Hd He.
  - reflexivity.
  - discriminate.
  - cbn [all_digits] in Hd. unfold is_digit in Hd.
    destruct (digit c1) as [hi|] eqn:E1; [|discriminate].
    destruct (digit c2) as [lo|] eqn:E2; [|discriminate].
    cbn [andb] in Hd. cbn [String.length Nat.even] in He.
    pose proof (digit_bound _ _ E1). pose proof (digit_bound _ _ E2).
    cbn [decode lowercase]. rewrite E1, E2. cbn [encode]. unfold of_byte.
    rewrite to_byte_of by lia. rewrite (IH Hd He).
    replace ((16 * hi + lo) / 16)%N with hi
      by (apply N.div_unique with (r := lo); lia).
    replace ((16 * hi + lo) mod 16)%N with lo
      by (apply N.mod_unique with (q := hi); lia).
    now rewrite (digit_lower _ _ E1), (digit_lower _ _ E2).
Qed.

End Normalization.

(** ** The sample instance meets the contracts *)

Lemma secp256k1_n_gt : (2 < secp256k1_n)%N.
Proof. reflexivity. Qed.

Lemma Sample_canonical : canonical_ecdsa Sample.primitives.
Proof.
  intros d h. unfold ecdsa_r, ecdsa_s, ecdsa_recid.
  cbn [ecdsa Sample.primitives Sample.sig fst snd].
  pose proof secp256k1_n_gt as Hn.
  assert (H2 : (secp256k1_n / 2 <> 0)%N).
  { intros E. apply N.div_small_iff in E; lia. }
  pose proof (N.mod_lt (d + Hex.be_to_N h) (secp256k1_n - 1)) as H1.
  pose proof (N.mod_lt (3 * d + Hex.be_to_N h) (secp256k1_n / 2) H2) as H3.
  pose proof (N.mod_lt (Hex.be_to_N h) 2) as H4.
  repeat split; lia.
Qed.

Lemma Sample_digest_sized : digest_sized Sample.primitives.
Proof.
  split.
  - intros m. apply HexFacts.length_be_bytes.
  - intros data h H. cbn [eip712Hash Sample.primitives] in H.
    injection H as <-. apply HexFacts.length_be_bytes.
Qed.

Lemma Sample_key_of : key_of Sample.key Sample.secret.
Proof. reflexivity. Qed.

Lemma Sample_valid_secret : valid_secret Sample.secret.
Proof. split; [reflexivity|split; reflexivity]. Qed.

(** ** Methods that only read the instance *)

Section Frame.
Context {P : Primitives}.

Lemma reads_only_ret {A : Type} (a : A) : reads_only (ret a).
Proof. intros this. reflexivity. Qed.

Lemma reads_only_call {A : Type} (r : Result A) : reads_only (call r).
Proof. intros this. reflexivity. Qed.

Lemma reads_only_this_wallet : reads_only this_wallet.
Proof. intros this. reflexivity. Qed.

Lemma reads_only_bind {A B : Type} (m : M A) (k : A -> M B) :
  reads_only m -> (forall a, reads_only (k a)) -> reads_only (bind m k).
Proof.
  intros Hm Hk this. unfold after, bind.
  specialize (Hm this). unfold after in Hm.
  destruct (m this) as [[a|e] this']; cbn [snd] in *; subst this'.
  - apply Hk.
  - reflexivity.
Qed.

Create HintDb frame.
#[local] Hint Resolve reads_only_ret reads_only_call reads_only_this_wallet : frame.

Ltac frame := repeat (apply reads_only_bind; [|intro]); auto with frame.

Lemma invoke_reads_only (c : SigningCall) : reads_only (invoke c).
Proof.
  destruct c; cbn [invoke];
    unfold sign, signEcda, signHashed, signHashedEcda, signTypedData,
      signHashedTypedData; frame.
Qed.

End Frame.

(** ** The cores that are computed

    The functions are run on published values: the hash of [abc], the
    first case of RFC 4231, the keccak-256 hash of the empty string, and a
    signature under the scalar 1 that the implementations of RFC 6979 over
    secp256k1 share as a test.  The wallet of the scalar 1 comes out as
    ethers prints it. *)

Section Vectors.
Import Hex.

Example sha256_abc :
  encode (Sha256.hash (ascii_bytes "abc"))
  = "ba7816bf8f01cfea414140de5dae2223b00361a396177a9cb410ff61f20015ad".
Proof. vm_compute. reflexivity. Qed.

Example hmac_sha256_rfc4231 :
  encode (Sha256.hmac (repeat x0b 20) (ascii_bytes "Hi There"))
  = "b0344c61d8db38535ca8afceaf0bf12b881dc200c9833da726e9376c2e32cff7".
Proof. vm_compute. reflexivity. Qed.

Example keccak256_empty :
  encode (Keccak.keccak256 [])
  = "c5d2460186f7233c927e7db2dcc703c0e500b653ca82273b7bfad8045d85a470".
Proof. vm_compute. reflexivity. Qed.

Example rfc6979_secp256k1_vector :
  let digest := Sha256.hash (ascii_bytes "Satoshi Nakamoto") in
  Rfc6979.candidate (Rfc6979.init (be_bytes 32 1 ++ digest))
  = 0x8F8A276C19F4149656B280621E358CCE24F5F52542772691EE69063B74F15D15%N /\
  Elliptic.sign 1 digest
  = (0x934b1ea10a4b3c1757e2b0c017d0b6143ce3c9a7e6a4a49860d7a6ab210ee3d8,
     0x2442ce9d2b916064108014783e923ec36b49743e2ffa1c4496f01a512aafd9e5, 1)%N /\
  Libsecp256k1.sign 1 digest = Elliptic.sign 1 digest.
Proof. vm_compute. split; [|split]; reflexivity. Qed.

Example wallet_of_one_built :
  fromHex (P := Libraries.primitives)
    (SecretString "0x0000000000000000000000000000000000000000000000000000000000000001")
  = Ok Vector.key_of_one.
Proof. vm_compute. reflexivity. Qed.

End Vectors.

(** *** The two signers *)

Section Signers.
Import Hex HexFacts.
Local Open Scope N_scope.

Lemma search_first {A : Type} (fuel : nat) (accept : N -> option A)
      (st : Rfc6979.State) (a : A) :
  accept (Rfc6979.candidate st) = Some a ->
  Rfc6979.search (S fuel) accept st = Some a.
Proof. unfold Rfc6979.candidate. intros H. cbn [Rfc6979.search]. now rewrite H. Qed.

Lemma secp256k1_n_odd : secp256k1_n = 2 * (secp256k1_n / 2) + 1.
Proof. reflexivity. Qed.

Lemma sign_with_nonce_bounds (d z k r s recid : N) :
  Curve.sign_with_nonce d z k = Some (r, s, recid) ->
  0 < r < secp256k1_n /\ 0 < s <= secp256k1_n / 2.
Proof.
  unfold Curve.sign_with_nonce.
  destruct (Curve.mul k Curve.G) as [|x y]; [discriminate|].
  pose proof secp256k1_n_odd as Hodd.
  assert (Hpos : secp256k1_n <> 0) by discriminate.
  revert Hodd Hpos. generalize secp256k1_n as n. intros n Hodd Hpos.
  pose proof (N.mod_lt x n Hpos) as Hr.
  pose proof (N.mod_lt (Curve.inverse k * (z + x mod n * d)) n Hpos) as Hs.
  revert Hr Hs.
  generalize (x mod n) as r0. intros r0.
  generalize ((Curve.inverse k * (z + r0 * d)) mod n) as s0. intros s0 Hr Hs.
  destruct (N.eqb_spec r0 0) as [|Hr0]; [discriminate|].
  destruct (N.eqb_spec s0 0) as [|Hs0]; [discriminate|].
  destruct (N.ltb_spec (n / 2) s0) as [Hhigh|Hlow];
    intros H; injection H as <- <- <-; lia.
Qed.

Lemma signers_agree (d : N) (digest : list byte) (sig : N * N * N) :
  List.length digest = 32%nat -> be_to_N digest < secp256k1_n ->
  1 < Rfc6979.candidate (Rfc6979.init (be_bytes 32 d ++ digest)) < secp256k1_n - 1 ->
  Curve.sign_with_nonce d (be_to_N digest)
    (Rfc6979.candidate (Rfc6979.init (be_bytes 32 d ++ digest))) = Some sig ->
  Elliptic.sign d digest = sig /\ Libsecp256k1.sign d digest = sig.
Proof.
  intros Hl Hz Hk Hsig.
  unfold Elliptic.sign, Libsecp256k1.sign, Elliptic.truncateToN, attempts.
  rewrite (N.mod_small _ _ Hz).
  destruct (N.leb_spec secp256k1_n (be_to_N digest)) as [|_]; [lia|].
  rewrite <- Hl at 2. rewrite be_bytes_be_to_N.
  revert Hk Hsig.
  generalize (Rfc6979.init (be_bytes 32 d ++ digest)) as st. intros st Hk Hsig.
  split; (erewrite search_first; [reflexivity|]).
  - unfold Elliptic.accept.
    destruct (N.leb_spec (Rfc6979.candidate st) 1) as [|_]; [lia|].
    destruct (N.leb_spec (secp256k1_n - 1) (Rfc6979.candidate st)) as [|_]; [lia|].
    exact Hsig.
  - unfold Libsecp256k1.accept.
    destruct (N.eqb_spec (Rfc6979.candidate st) 0) as [E|_]; [lia|].
    destruct (N.leb_spec secp256k1_n (Rfc6979.candidate st)) as [|_]; [lia|].
    exact Hsig.
Qed.
End Signers.

(** *** Addresses *)

Section Addresses.
Import Hex HexFacts.

Lemma length_lanes (f : nat -> nat -> N) : List.length (Keccak.lanes f) = 25%nat.
Proof. unfold Keccak.lanes. now rewrite length_map, length_seq. Qed.

Lemma length_round (A : list N) (rc : N) : List.length (Keccak.round A rc) = 25%nat.
Proof.
  unfold Keccak.round, Keccak.chi.
  pose proof (length_lanes (fun x y =>
    N.lxor (Keccak.lane (Keccak.rho_pi (Keccak.theta A)) x y)
           (N.land (N.lxor (Keccak.lane (Keccak.rho_pi (Keccak.theta A)) (x + 1) y) Keccak.mask)
                   (Keccak.lane (Keccak.rho_pi (Keccak.theta A)) (x + 2) y)))) as H.
  destruct (Keccak.lanes _) as [|a l]; [discriminate|exact H].
Qed.

Lemma length_permute (A : list N) : List.length (Keccak.permute A) = 25%nat.
Proof.
  unfold Keccak.permute.
  change Keccak.RC with (removelast Keccak.RC ++ [last Keccak.RC 0%N])%list.
  rewrite fold_left_app. apply length_round.
Qed.

Lemma length_absorb (k : nat) (bs : list byte) (A : list N) :
  List.length A = 25%nat -> List.length (Keccak.absorb k bs A) = 25%nat.
Proof.
  revert bs A. induction k as [|k IH]; intros bs A HA; [exact HA|].
  cbn [Keccak.absorb]. apply IH, length_permute.
Qed.

Lemma length_keccak256 (msg : list byte) : List.length (Keccak.keccak256 msg) = 32%nat.
Proof.
  unfold Keccak.keccak256.
  pose proof (length_absorb (List.length (Keccak.pad msg) / Keccak.rate) (Keccak.pad msg)
                (repeat 0%N 25) eq_refl) as H.
  destruct (Keccak.absorb _ _ _) as [|a [|b [|c [|d A]]]]; try discriminate.
  cbn [firstn flat_map]. rewrite !length_app, !length_rev, !length_be_bytes. reflexivity.
Qed.

Lemma digit_upper (c : ascii) : is_digit c = true -> is_digit (Checksum.upper c) = true.
Proof. destruct c as [[] [] [] [] [] [] [] []]; intros H; try reflexivity; discriminate H. Qed.

Lemma checksum_case_digits (digits hash : string) :
  all_digits digits = true -> all_digits (Checksum.checksum_case digits hash) = true.
Proof.
  revert hash. induction digits as [|c digits IH]; intros hash H; [reflexivity|].
  cbn [all_digits] in H. apply andb_prop in H. destruct H as [Hc Hd].
  destruct hash as [|h hash]; cbn [Checksum.checksum_case all_digits].
  - now rewrite Hc, Hd.
  - rewrite (IH hash Hd), andb_true_r.
    destruct (digit h) as [v|]; [|exact Hc].
    destruct (8 <=? v)%N; [now apply digit_upper|exact Hc].
Qed.

Lemma length_checksum_case (digits hash : string) :
  String.length (Checksum.checksum_case digits hash) = String.length digits.
Proof.
  revert hash. induction digits as [|c digits IH]; intros hash; [reflexivity|].
  destruct hash as [|h hash]; cbn [Checksum.checksum_case String.length]; [reflexivity|].
  now rewrite IH.
Qed.

(** What [computeAddress] of ethers returns is an address. *)
Lemma computeAddress_well_formed (publicKey : string) :
  well_formed_address (Checksum.computeAddress publicKey).
Proof.
  unfold Checksum.computeAddress, Checksum.getAddress.
  eexists. split; [reflexivity|]. split.
  - apply checksum_case_digits, all_digits_encode.
  - rewrite length_checksum_case, length_encode, length_skipn, length_keccak256.
    reflexivity.
Qed.

Lemma Libraries_address_shaped : address_shaped Libraries.primitives.
Proof. intros pub. apply computeAddress_well_formed. Qed.

End Addresses.

(** *** The wallet path at one digest *)

Section SigningAt.
Context {P : Primitives}.
Import Hex HexFacts Ethers EthersFacts.

(** The signature object of ethers, from the contract at one digest. *)
Lemma signDigest_valid_at (sk : SigningKey) (b h : list byte) :
  sk_privateKey sk = hexlify b -> valid_secret b -> List.length h = 32%nat ->
  canonical_at (be_to_N b) h ->
  signDigest sk (Bytes h)
  = Ok {| r := "0x" ++ padded 32 (ecdsa_r (be_to_N b) h);
          s := "0x" ++ padded 32 (ecdsa_s (be_to_N b) h);
          recoveryParam := ecdsa_recid (be_to_N b) h;
          v := (27 + ecdsa_recid (be_to_N b) h)%N |}.
Proof.
  intros Hk (Hl & Hpos & Hlt) Hh (Hr & Hs & Hv). unfold signDigest.
  pose proof secp256k1_n_lt as Hn. pose proof secp256k1_half_lt as Hn2.
  rewrite Hk, arrayify_hexlify. cbn [rbind arrayify]. rewrite Hh. cbn [Nat.eqb negb].
  rewrite (N.mod_small _ _ Hlt), ecdsa_eta.
  rewrite !hexZeroPad_of_N by lia.
  cbn [rbind].
  apply splitSignature_canonical; [lia|lia|exact Hv|now left].
Qed.

(** The wallet path, from the contract at one digest. *)
Lemma wallet_path_at (pk : PrivateKey) (b h : list byte) :
  key_of pk b -> valid_secret b -> List.length h = 32%nat ->
  canonical_at (be_to_N b) h ->
  returned (signHashed h) pk = Ok (r_s (be_to_N b) h).
Proof.
  intros Hk Hv Hh Hc. unfold returned, signHashed, bind, this_wallet, call.
  cbn [fst snd].
  rewrite (signDigest_valid_at _ b h Hk Hv Hh Hc). cbn [fst snd].
  destruct Hc as (Hr & Hs & Hrec).
  pose proof secp256k1_n_lt as Hn. pose proof secp256k1_half_lt as Hn2.
  unfold like. cbn [r s recoveryParam v].
  rewrite splitSignature_canonical; [|lia|lia|exact Hrec|now right].
  cbn [fst snd r s].
  rewrite concat_padded by lia.
  reflexivity.
Qed.

End SigningAt.

(** * The claims *)

Section Claims.
Context {P : Primitives}.
Import Hex HexFacts Ethers EthersFacts.

(** C1, as the code has it.  The wallet signs with the signer of
    elliptic, the [secp256k1] package with that of libsecp256k1.  For a
    key that holds a secret in [1, n-1] and a 32-byte digest whose value
    is below the group order, [signHashed] and [signHashedEcda] return the
    same 64 bytes: the [r] and the [s] that the ECDSA equations give for
    the nonce RFC 6979 derives from the secret and the digest, each on 32
    bytes; likewise [sign] and [signEcda] on a message with that
    keccak-256 hash.  The statement is for the case in which both
    libraries take the first candidate of the nonce generator and the
    recovery id is 0 or 1. *)
Theorem wallet_and_primitive_agree_below_the_order
  (pk : PrivateKey) (b digest : list byte) (r s recid : N) :
  key_of pk b -> valid_secret b ->
  List.length digest = 32%nat -> (be_to_N digest < secp256k1_n)%N ->
  (1 < Rfc6979.candidate (Rfc6979.init (b ++ digest)) < secp256k1_n - 1)%N ->
  Curve.sign_with_nonce (be_to_N b) (be_to_N digest)
    (Rfc6979.candidate (Rfc6979.init (b ++ digest))) = Some (r, s, recid) ->
  (recid <= 1)%N ->
  returned (signHashed (P := wallet_side P) digest) pk
  = Ok (be_bytes 32 r ++ be_bytes 32 s)%list /\
  returned (signHashedEcda (P := primitive_side P) digest) pk
  = Ok (be_bytes 32 r ++ be_bytes 32 s)%list /\
  (forall msg, keccak256 msg = digest ->
     returned (sign (P := wallet_side P) msg) pk
     = Ok (be_bytes 32 r ++ be_bytes 32 s)%list /\
     returned (signEcda (P := primitive_side P) msg) pk
     = Ok (be_bytes 32 r ++ be_bytes 32 s)%list).
Proof.
  intros Hk Hv Hl Hz Hc Hsig Hrec.
  assert (Hb : be_bytes 32 (be_to_N b) = b).
  { destruct Hv as [Hlb _]. rewrite <- Hlb. apply be_bytes_be_to_N. }
  rewrite <- Hb in Hc. rewrite <- Hb in Hsig at 2.
  destruct (signers_agree _ _ _ Hl Hz Hc Hsig) as [He Hs].
  destruct (sign_with_nonce_bounds _ _ _ _ _ _ Hsig) as [Hr Hs'].
  assert (Hw : returned (signHashed (P := wallet_side P) digest) pk
               = Ok (be_bytes 32 r ++ be_bytes 32 s)%list).
  { rewrite (wallet_path_at (P := wallet_side P) pk b digest Hk Hv Hl).
    - unfold r_s, ecdsa_r, ecdsa_s. cbn [ecdsa wallet_side with_signer].
      now rewrite He.
    - unfold canonical_at, ecdsa_r, ecdsa_s, ecdsa_recid.
      cbn [ecdsa wallet_side with_signer]. rewrite He. cbn [fst snd]. lia. }
  assert (Hp : returned (signHashedEcda (P := primitive_side P) digest) pk
               = Ok (be_bytes 32 r ++ be_bytes 32 s)%list).
  { rewrite (primitive_path (P := primitive_side P) pk b digest Hk Hv Hl).
    unfold r_s, ecdsa_r, ecdsa_s. cbn [ecdsa primitive_side with_signer].
    now rewrite Hs. }
  split; [exact Hw|]. split; [exact Hp|].
  intros msg Hm. subst digest. split; [exact Hw|exact Hp].
Qed.

(** C2. For a key that holds a valid secret, whatever [signTypedData]
    returns is 65 bytes long, and whatever [sign], [signEcda],
    [signHashed], [signHashedEcda] and [signHashedTypedData] return is 64
    bytes long; [sign] and [signEcda] always return, the three methods on
    digests return on every 32-byte digest, and [signTypedData] returns
    whenever the typed data can be hashed. *)
Theorem signature_lengths
  (pk : PrivateKey) (b msg digest : list byte) (data : TypedData) :
  canonical_ecdsa P -> digest_sized P ->
  key_of pk b -> valid_secret b ->
  (exists out, returned (sign msg) pk = Ok out /\ List.length out = 64%nat) /\
  (exists out, returned (signEcda msg) pk = Ok out /\ List.length out = 64%nat) /\
  (forall out, returned (signHashed digest) pk = Ok out -> List.length out = 64%nat) /\
  (forall out, returned (signHashedEcda digest) pk = Ok out -> List.length out = 64%nat) /\
  (forall out, returned (signHashedTypedData digest) pk = Ok out ->
               List.length out = 64%nat) /\
  (forall out, returned (signTypedData data) pk = Ok out -> List.length out = 65%nat) /\
  (List.length digest = 32%nat ->
   isOk (returned (signHashed digest) pk) = true /\
   isOk (returned (signHashedEcda digest) pk) = true /\
   isOk (returned (signHashedTypedData digest) pk) = true) /\
  (isOk (eip712Hash data) = true -> isOk (returned (signTypedData data) pk) = true).
Proof.
  intros Hc [Hk256 H712] Hk Hv.
  assert (Hashed : forall out, returned (signHashed digest) pk = Ok out ->
                               List.length out = 64%nat).
  { intros out. destruct (Nat.eq_dec (List.length digest) 32) as [Hd|Hd].
    - rewrite (wallet_path Hc pk b digest Hk Hv Hd). intros [= <-]. apply length_r_s.
    - now rewrite (wallet_path_length pk b digest Hk Hd). }
  assert (Ecda : forall out, returned (signHashedEcda digest) pk = Ok out ->
                             List.length out = 64%nat).
  { intros out. destruct (Nat.eq_dec (List.length digest) 32) as [Hd|Hd].
    - rewrite (primitive_path pk b digest Hk Hv Hd). intros [= <-]. apply length_r_s.
    - now rewrite (primitive_path_length pk b digest Hk Hd). }
  repeat split.
  - exists (r_s (be_to_N b) (keccak256 msg)). split; [|apply length_r_s].
    rewrite sign_is_signHashed. now apply wallet_path.
  - exists (r_s (be_to_N b) (keccak256 msg)). split; [|apply length_r_s].
    rewrite signEcda_is_signHashedEcda. now apply primitive_path.
  - exact Hashed.
  - exact Ecda.
  - exact Ecda.
  - intros out. destruct (eip712Hash data) as [h|e] eqn:E.
    + rewrite (typed_data_path Hc pk b h data Hk Hv E (H712 _ _ E)).
      intros H. replace out with
        (r_s (be_to_N b) h ++ [byte_of_N (ecdsa_recid (be_to_N b) h + 27)])%list
        by congruence.
      rewrite length_app, length_r_s. reflexivity.
    + now rewrite (typed_data_path_throws pk data e E).
  - now rewrite (wallet_path Hc pk b digest Hk Hv).
  - now rewrite (primitive_path pk b digest Hk Hv).
  - change (signHashedTypedData digest) with (signHashedEcda digest).
    now rewrite (primitive_path pk b digest Hk Hv).
  - destruct (eip712Hash data) as [h|e] eqn:E; [intros _|discriminate].
    now rewrite (typed_data_path Hc pk b h data Hk Hv E (H712 _ _ E)).
Qed.


(** C5. For a key that holds a valid secret, [sign] hashes the message
    with keccak-256, has the digest signed by the wallet's signing key
    (which computes the recovery id beside [r] and [s]), and returns [r]
    followed by [s], each as the 32 big-endian bytes of the number, the
    recovery id being left out. *)
Theorem sign_returns_padded_r_s (pk : PrivateKey) (b msg : list byte) :
  canonical_ecdsa P -> digest_sized P ->
  key_of pk b -> valid_secret b ->
  let digest := keccak256 msg in
  let d := be_to_N b in
  returned (sign msg) pk
  = Ok (be_bytes 32 (ecdsa_r d digest) ++ be_bytes 32 (ecdsa_s d digest))%list /\
  (exists sig, signDigest (_signingKey (wallet pk)) (Bytes digest) = Ok sig /\
               recoveryParam sig = ecdsa_recid d digest) /\
  List.length (be_bytes 32 (ecdsa_r d digest)) = 32%nat /\
  be_to_N (be_bytes 32 (ecdsa_r d digest)) = ecdsa_r d digest /\
  List.length (be_bytes 32 (ecdsa_s d digest)) = 32%nat /\
  be_to_N (be_bytes 32 (ecdsa_s d digest)) = ecdsa_s d digest.
Proof.
  intros Hc [Hk256 _] Hk Hv digest d. subst digest d.
  split; [|split; [|split; [|split; [|split]]]].
  - rewrite sign_is_signHashed. now apply wallet_path.
  - eexists. split; [now apply (signDigest_valid Hc _ b)|reflexivity].
  - apply length_be_bytes.
  - rewrite be_to_N_be_bytes. apply N.mod_small. apply (r_bound Hc).
  - apply length_be_bytes.
  - rewrite be_to_N_be_bytes. apply N.mod_small. apply (s_bound' Hc).
Qed.

(** C9. No signing method changes the instance: after any of the six
    calls the wallet, and with it [toPrivateKeyHex], [toHex],
    [toPublicKey] and [toBech32], are what they were before. *)
Theorem signing_leaves_key_unchanged (c : SigningCall) (this : PrivateKey) :
  after (invoke c) this = this /\
  wallet (after (invoke c) this) = wallet this /\
  toPrivateKeyHex (after (invoke c) this) = toPrivateKeyHex this /\
  toHex (after (invoke c) this) = toHex this /\
  toPublicKey (after (invoke c) this) = toPublicKey this /\
  toBech32 (after (invoke c) this) = toBech32 this.
Proof. rewrite invoke_reads_only. repeat split. Qed.

(** C10. [signHashedTypedData] and [signHashedEcda] are the same
    function: on every instance and every byte input they return the same
    result and leave the same instance. *)
Theorem signHashedTypedData_is_signHashedEcda (bytes : list byte) (this : PrivateKey) :
  signHashedTypedData bytes this = signHashedEcda bytes this.
Proof. reflexivity. Qed.

End Claims.

Section ConstructionClaims.
Context {P : Primitives}.
Import Hex HexFacts Ethers EthersFacts.

Lemma toPrivateKeyHex_key_of (pk : PrivateKey) (b : list byte) :
  key_of pk b -> toPrivateKeyHex pk = hexlify b.
Proof. unfold key_of, toPrivateKeyHex. intros ->. reflexivity. Qed.

Lemma Wallet_new_32 (key : list byte) :
  List.length key = 32%nat ->
  Wallet_new key
  = (pub <- publicKeyOf key ;;
     Ok {| _signingKey := {| sk_privateKey := hexlify key; sk_publicKey := pub |};
           address := computeAddress pub;
           mnemonic := None |})%result.
Proof.
  intros Hl. unfold Wallet_new, SigningKey_new.
  rewrite hexDataLength_hexlify, arrayify_hexlify, Hl. cbn [Nat.eqb negb rbind].
  now destruct (publicKeyOf key).
Qed.

Lemma prefixed_once_hexlify (b : list byte) : prefixed_once (hexlify b).
Proof.
  split; [reflexivity|].
  change (JS.slice 2 (hexlify b)) with (encode b).
  apply x_not_digit, all_digits_encode.
Qed.

(** What [fromHex] does.  It uses raw bytes as they are; from a string
    it removes a leading lower-case [0x] and decodes the rest as hex.  An even number of hex digits, in either letter case,
    gives exactly the bytes they spell; but decoding stops without an
    error at the first pair that is not two hex digits, so whatever
    follows well-formed digits is dropped, and behind an upper-case [0X]
    nothing is decoded at all.  The bytes go to the wallet
    constructor: other than 32 bytes are refused with its
    invalid-private-key error; 32 bytes are accepted or refused as its
    key derivation decides, and an accepted key is stored as the hex of
    exactly those bytes. *)
Lemma fromHex_decodes_then_delegates
  (secret : Secret) (b : list byte) (h junk : string) :
  all_digits h = true -> Nat.even (String.length h) = true -> stops junk = true ->
  privateKeyBuff (SecretBytes b) = b /\
  privateKeyBuff (SecretString h) = decode h /\
  privateKeyBuff (SecretString ("0x" ++ h)) = decode h /\
  encode (decode h) = lowercase h /\
  (2 * List.length (decode h))%nat = String.length h /\
  privateKeyBuff (SecretString ("0x" ++ h ++ junk)) = decode h /\
  fromHex (SecretString ("0X" ++ h)) = Throw InvalidPrivateKey /\
  (List.length (privateKeyBuff secret) <> 32%nat ->
   fromHex secret = Throw InvalidPrivateKey) /\
  (List.length (privateKeyBuff secret) = 32%nat ->
   forall e, publicKeyOf (privateKeyBuff secret) = Throw e -> fromHex secret = Throw e) /\
  (List.length (privateKeyBuff secret) = 32%nat ->
   isOk (publicKeyOf (privateKeyBuff secret)) = true -> isOk (fromHex secret) = true) /\
  (forall pk, fromHex secret = Ok pk ->
              List.length (privateKeyBuff secret) = 32%nat /\
              key_of pk (privateKeyBuff secret)).
Proof.
  intros Hd He Hj.
  split; [reflexivity|].
  split; [cbn [privateKeyBuff]; now rewrite (strip0x_digits h Hd)|].
  split; [reflexivity|].
  split; [now apply encode_decode|].
  split; [destruct (length_decode h Hd) as [H|H]; [exact H|congruence]|].
  split; [cbn [privateKeyBuff]; rewrite strip0x_0x; now apply decode_stops|].
  split; [unfold fromHex; now rewrite Wallet_new_length|].
  split; [intros Hl; unfold fromHex; now rewrite (Wallet_new_length _ Hl)|].
  split; [intros Hl e Hp; unfold fromHex; now rewrite (Wallet_new_32 _ Hl), Hp|].
  split.
  - intros Hl Hp. unfold fromHex. rewrite (Wallet_new_32 _ Hl).
    now destruct (publicKeyOf (privateKeyBuff secret)).
  - intros pk. apply fromHex_inv.
Qed.

(** C6. A key built by [fromHex], exported with [toPrivateKeyHex] and
    read back by [fromHex], is the key it was: the same instance, hence the
    same public key and the same address. *)
Theorem fromHex_toPrivateKeyHex_roundtrip (secret : Secret) (pk : PrivateKey) :
  fromHex secret = Ok pk ->
  exists pk', fromHex (SecretString (toPrivateKeyHex pk)) = Ok pk' /\
              pk' = pk /\
              toPublicKey pk' = toPublicKey pk /\
              toHex pk' = toHex pk /\
              toBech32 pk' = toBech32 pk.
Proof.
  intros H. exists pk. split; [|repeat split].
  destruct (fromHex_inv secret pk H) as [_ Hk].
  rewrite (toPrivateKeyHex_key_of pk _ Hk).
  rewrite <- H. unfold fromHex.
  cbn [privateKeyBuff]. unfold hexlify, Buffer_from_hex.
  now rewrite strip0x_0x, decode_encode.
Qed.

(** C8. [fromMnemonic] fails with [InvalidMnemonic] when the phrase does
    not pass validation, whatever the derivation would have given (the
    statement holds for every derivation function); when the phrase is
    valid, the secret derived along the path (the default one when none is
    given) is what the wallet is built from, and a key that was returned
    holds that 32-byte secret. *)
Theorem fromMnemonic_validates_before_deriving (words : string) (path : option string) :
  let p := match path with Some p => p | None => DEFAULT_DERIVATION_PATH end in
  (mnemonicValid words = false -> fromMnemonic words path = Throw InvalidMnemonic) /\
  (mnemonicValid words = true ->
   (forall e, deriveSecret words p = Throw e -> fromMnemonic words path = Throw e) /\
   (forall key, deriveSecret words p = Ok key ->
      fromMnemonic words path
      = (w <- Wallet_new key ;;
         Ok {| wallet := {| _signingKey := _signingKey w;
                            address := address w;
                            mnemonic := Some (words, p) |} |})%result)) /\
  (forall pk, fromMnemonic words path = Ok pk ->
     mnemonicValid words = true /\
     exists key, deriveSecret words p = Ok key /\
                 List.length key = 32%nat /\ key_of pk key).
Proof.
  intros p. unfold fromMnemonic, Wallet_fromMnemonic. fold p.
  split; [intros ->; reflexivity|]. split.
  - intros ->. split.
    + intros e ->. reflexivity.
    + intros key ->. cbn [rbind]. now destruct (Wallet_new key).
  - intros pk. destruct (mnemonicValid words); cbn [rbind]; [|discriminate].
    destruct (deriveSecret words p) as [key|e]; cbn [rbind]; [|discriminate].
    destruct (Wallet_new key) as [w|e] eqn:E; cbn [rbind]; [|discriminate].
    apply Wallet_new_inv in E. destruct E as (Hl & Hk & _).
    intros [= <-]. split; [reflexivity|]. exists key. now repeat split.
Qed.

End ConstructionClaims.

(** ** The claims on concrete inputs *)

Section Instances.
Import Hex Ethers.
#[local] Existing Instance Sample.primitives.

(** The constructor's assignment does change the instance. *)
Example assign_wallet_writes :
  after (assign_wallet Vector.wallet_of_one) Sample.key = Vector.key_of_one /\
  Vector.key_of_one <> Sample.key.
Proof. split; [reflexivity|discriminate]. Qed.

(** A digest that is not 32 bytes is refused on both paths, by different
    libraries. *)
Example signHashed_short_digest :
  returned (signHashed [x01]) Sample.key = Throw BadDigestLength.
Proof. reflexivity. Qed.

Example signHashedEcda_short_digest :
  returned (signHashedEcda [x01]) Sample.key = Throw Secp256k1Rejected.
Proof. reflexivity. Qed.

(** A phrase of three words does not pass the sample validation. *)
Example fromMnemonic_short_phrase :
  fromMnemonic "legal winner thank" None = Throw InvalidMnemonic.
Proof. reflexivity. Qed.

(** A 33-byte secret is refused. *)
Example fromHex_33_bytes :
  fromHex (SecretBytes (x01 :: Sample.secret)) = Throw InvalidPrivateKey.
Proof. reflexivity. Qed.

(** C2 on the sample key: [sign] returns 64 bytes, [signTypedData] 65. *)
Lemma signature_lengths_witness :
  (exists out, returned (sign Sample.hello) Sample.key = Ok out /\
               List.length out = 64%nat) /\
  (forall out, returned (signTypedData (P := Sample.primitives) [x01]) Sample.key = Ok out ->
               List.length out = 65%nat).
Proof.
  destruct (signature_lengths (P := Sample.primitives)
              Sample.key Sample.secret Sample.hello Sample.digest32 [x01]
              Sample_canonical Sample_digest_sized Sample_key_of Sample_valid_secret)
    as (Hsign & _ & _ & _ & _ & Htyped & _).
  exact (conj Hsign Htyped).
Defined.

(** C5 on the sample key and the message [hello]. *)
Lemma sign_returns_padded_r_s_witness :
  returned (sign Sample.hello) Sample.key
  = Ok (be_bytes 32 (ecdsa_r (be_to_N Sample.secret) (keccak256 Sample.hello))
        ++ be_bytes 32 (ecdsa_s (be_to_N Sample.secret) (keccak256 Sample.hello)))%list.
Proof.
  exact (proj1 (sign_returns_padded_r_s (P := Sample.primitives)
                  Sample.key Sample.secret Sample.hello
                  Sample_canonical Sample_digest_sized
                  Sample_key_of Sample_valid_secret)).
Defined.

(** C4: the secret [0x0101..01] followed by [zz] is not a hex string.
    [fromHex] does not refuse it: it decodes the first 64 digits, drops
    the rest and builds the key of [0x0101..01], on the stand-ins and on
    the computed cores alike; the deprecated [fromPrivateKey] refuses the
    same string.  Nor does [fromHex] refuse 32 bytes that spell a number
    above the group order. *)
Lemma fromHex_truncates_malformed_secret :
  isHexString Sample.malformed = false /\
  String.length Sample.malformed = 68%nat /\
  privateKeyBuff (SecretString Sample.malformed) = Sample.secret /\
  fromHex (P := Sample.primitives) (SecretString Sample.malformed) = Ok Sample.key /\
  fromPrivateKey (P := Sample.primitives) Sample.malformed = Throw InvalidHexData /\
  fromHex (P := Libraries.primitives) (SecretString Sample.malformed) = Ok Libraries.key /\
  fromPrivateKey (P := Libraries.primitives) Sample.malformed = Throw InvalidHexData /\
  toPrivateKeyHex Libraries.key = "0x" ++ Sample.digits /\
  (secp256k1_n <= be_to_N Libraries.top)%N /\
  fromHex (P := Libraries.primitives) (SecretBytes Libraries.top) = Ok Libraries.wide_key.
Proof.
  split; [reflexivity|]. split; [reflexivity|]. split; [reflexivity|].
  split; [reflexivity|]. split; [reflexivity|].
  split; [vm_compute; reflexivity|]. split; [reflexivity|]. split; [reflexivity|].
  split; [vm_compute; discriminate|]. vm_compute. reflexivity.
Qed.

(** C6 on the sample key. *)
Lemma fromHex_toPrivateKeyHex_roundtrip_witness :
  exists pk', fromHex (P := Sample.primitives)
                (SecretString (toPrivateKeyHex Sample.key)) = Ok pk' /\
              pk' = Sample.key /\
              toPublicKey pk' = toPublicKey Sample.key /\
              toHex pk' = toHex Sample.key /\
              toBech32 pk' = toBech32 Sample.key.
Proof.
  apply (fromHex_toPrivateKeyHex_roundtrip (P := Sample.primitives)
           (SecretBytes Sample.secret) Sample.key).
  reflexivity.
Defined.

End Instances.

(** ** The claims on the computed cores *)

Section ComputedInstances.
Import Hex Ethers.

(** The instance [Libraries.primitives] is its own wallet side, and
    [Libraries.native] its primitive side. *)
Example Libraries_sides :
  wallet_side Libraries.primitives = Libraries.primitives /\
  primitive_side Libraries.primitives = Libraries.native.
Proof. split; reflexivity. Qed.

(** C1.  On the digest [0xffff..ff], which is above the group order, the
    key of [0x0101..01] gets two different signatures from the two
    methods.  And with the key that [fromHex] builds from the 32 bytes
    [0xffff..ff], [signHashed] signs and [signHashedEcda] throws. *)
Lemma signHashed_and_signHashedEcda_differ :
  (fromHex (P := Libraries.primitives) (SecretBytes Sample.secret) = Ok Libraries.key /\
   returned (signHashed (P := Libraries.primitives) Libraries.top) Libraries.key
   = Ok (Buffer_from_hex
           "1b3e4eb79d6c3ff54ed5a83dc3e0476abeb3a9488d721c0ee057f48ae17a873c7a6086244f54c15be735d8b3d5d2ca49106175b061491033c8e6dfa7f93eac95") /\
   returned (signHashedEcda (P := Libraries.native) Libraries.top) Libraries.key
   = Ok (Buffer_from_hex
           "4cb68a6baaafcff2057b5d9791bf08cb51fd7bcf5ecd878835c35d8ff3a829156010cfd4d05655b83fe4344f4bda759d7dec291cd62d92848975223ff7f00f46") /\
   returned (signHashed (P := Libraries.primitives) Libraries.top) Libraries.key
   <> returned (signHashedEcda (P := Libraries.native) Libraries.top) Libraries.key) /\
  (fromHex (P := Libraries.primitives) (SecretBytes Libraries.top) = Ok Libraries.wide_key /\
   returned (signHashed (P := Libraries.primitives) Libraries.sevens) Libraries.wide_key
   = Ok (Buffer_from_hex
           "64548f6d5c59ea9c43beac8799b92d929dfd899e0a50a9637e0fcd92a82df9214306caf04bc725341e4df7fec0bcf16e646c132fe92e7a6c34dd002da257abdb") /\
   returned (signHashedEcda (P := Libraries.native) Libraries.sevens) Libraries.wide_key
   = Throw Secp256k1Rejected).
Proof.
  assert (Wallet :
    returned (signHashed (P := Libraries.primitives) Libraries.top) Libraries.key
    = Ok (Buffer_from_hex
            "1b3e4eb79d6c3ff54ed5a83dc3e0476abeb3a9488d721c0ee057f48ae17a873c7a6086244f54c15be735d8b3d5d2ca49106175b061491033c8e6dfa7f93eac95"))
    by (vm_compute; reflexivity).
  assert (Primitive :
    returned (signHashedEcda (P := Libraries.native) Libraries.top) Libraries.key
    = Ok (Buffer_from_hex
            "4cb68a6baaafcff2057b5d9791bf08cb51fd7bcf5ecd878835c35d8ff3a829156010cfd4d05655b83fe4344f4bda759d7dec291cd62d92848975223ff7f00f46"))
    by (vm_compute; reflexivity).
  split.
  - split; [vm_compute; reflexivity|]. split; [exact Wallet|]. split; [exact Primitive|].
    rewrite Wallet, Primitive. intros H. vm_compute in H. discriminate H.
  - split; [|split]; vm_compute; reflexivity.
Qed.

(** The amended C1 on the key of [0x0101..01] and the digest [0x0707..07],
    whose [r] begins with a zero byte. *)
Lemma wallet_and_primitive_agree_below_the_order_witness :
  returned (signHashed (P := wallet_side Libraries.primitives) Libraries.sevens) Libraries.key
  = Ok (be_bytes 32 0x001af75f8a0ececcc4af0ccdbcccc1a81656eca444e3484151212ad1823ae122
        ++ be_bytes 32 0x7cc07485ba5a779f1f12089090e4b013322db0dae4e8151592c0b1ee0fd0f74d)%list /\
  returned (signHashedEcda (P := primitive_side Libraries.primitives) Libraries.sevens)
           Libraries.key
  = Ok (be_bytes 32 0x001af75f8a0ececcc4af0ccdbcccc1a81656eca444e3484151212ad1823ae122
        ++ be_bytes 32 0x7cc07485ba5a779f1f12089090e4b013322db0dae4e8151592c0b1ee0fd0f74d)%list.
Proof.
  destruct (wallet_and_primitive_agree_below_the_order
              (P := Libraries.primitives) Libraries.key Sample.secret Libraries.sevens
              0x001af75f8a0ececcc4af0ccdbcccc1a81656eca444e3484151212ad1823ae122
              0x7cc07485ba5a779f1f12089090e4b013322db0dae4e8151592c0b1ee0fd0f74d 0)
    as (Hw & Hp & _).
  - reflexivity.
  - exact Sample_valid_secret.
  - reflexivity.
  - vm_compute. reflexivity.
  - vm_compute. split; reflexivity.
  - vm_compute. reflexivity.
  - vm_compute. discriminate.
  - exact (conj Hw Hp).
Defined.

(** The bytes [sign] returns for the message [hello]. *)
Example sign_hello :
  returned (sign (P := Libraries.primitives) Sample.hello) Libraries.key
  = Ok (Buffer_from_hex
          "2a99880c06b5d600a532a98c2b66384c1c76ba0c165b7f233e9541ad33b6007d3c64279197a569d307dbed301a56ee695c0d82bcb92d67b14eb7617977639d07").
Proof. vm_compute. reflexivity. Qed.


End ComputedInstances.


(** * Further properties of the class *)

(** ** Letter case and the stored key *)

Section LetterCase.
Import Hex HexFacts Ethers EthersFacts.

Lemma digit_lower_same (c : ascii) : digit (lower c) = digit c.
Proof. destruct c as [[] [] [] [] [] [] [] []]; reflexivity. Qed.

Lemma lower_zero (c : ascii) : Ascii.eqb "0"%char (lower c) = Ascii.eqb "0"%char c.
Proof. destruct c as [[] [] [] [] [] [] [] []]; reflexivity. Qed.

Lemma lower_x (c : ascii) : Ascii.eqb "x"%char (lower c) = Ascii.eqb "x"%char c.
Proof. destruct c as [[] [] [] [] [] [] [] []]; reflexivity. Qed.

Lemma toLowerCase_digit (c : ascii) :
  (if is_digit c then Ascii.eqb (toLowerCase_char c) (lower c) else true) = true.
Proof. destruct c as [[] [] [] [] [] [] [] []]; reflexivity. Qed.

Lemma decode_lowercase (s : string) : decode (lowercase s) = decode s.
Proof.
  induction s as [|c|c1 c2 s IH] using string_pair_ind; try reflexivity.
  cbn [lowercase decode]. rewrite !digit_lower_same, IH. reflexivity.
Qed.

Lemma strip0x_lowercase (s : string) : strip0x (lowercase s) = lowercase (strip0x s).
Proof.
  unfold strip0x. destruct s as [|c1 [|c2 s]]; try reflexivity.
  - cbn [lowercase JS.startsWith]. rewrite lower_zero.
    destruct (Ascii.eqb "0"%char c1); reflexivity.
  - cbn [lowercase JS.startsWith]. rewrite lower_zero, lower_x.
    destruct (Ascii.eqb "0"%char c1), (Ascii.eqb "x"%char c2); reflexivity.
Qed.

Lemma toLowerCase_digits (h : string) :
  all_digits h = true -> toLowerCase h = lowercase h.
Proof.
  induction h as [|c h IH]; [reflexivity|].
  cbn [all_digits toLowerCase lowercase]. intros H.
  apply andb_prop in H. destruct H as [Hc Hh].
  pose proof (toLowerCase_digit c) as E. rewrite Hc in E.
  apply Ascii.eqb_eq in E. now rewrite E, IH.
Qed.

Lemma hexlify_inj (b1 b2 : list byte) : hexlify b1 = hexlify b2 -> b1 = b2.
Proof.
  unfold hexlify. intros H.
  assert (E : encode b1 = encode b2) by (cbn in H; now injection H).
  rewrite <- (decode_encode b1), <- (decode_encode b2). now rewrite E.
Qed.

(** The hex string in lower case is the stored form of the bytes it
    spells. *)
Lemma toLowerCase_0x (h : string) :
  all_digits h = true -> Nat.even (String.length h) = true ->
  toLowerCase ("0x" ++ h) = hexlify (decode h).
Proof.
  intros Hd He. unfold hexlify. rewrite (encode_decode h Hd He).
  change (toLowerCase ("0x" ++ h)) with ("0x" ++ toLowerCase h).
  now rewrite (toLowerCase_digits h Hd).
Qed.

End LetterCase.

Section SecretOnly.
Context {P : Primitives}.
Import Hex HexFacts Ethers EthersFacts.

Lemma signDigest_secret_only (sk1 sk2 : SigningKey) (digest : BytesLike) :
  sk_privateKey sk1 = sk_privateKey sk2 -> signDigest sk1 digest = signDigest sk2 digest.
Proof. unfold signDigest. now intros ->. Qed.

(** Every signing method consults the stored key and nothing else of the
    wallet. *)
Lemma invoke_secret_only (c : SigningCall) (pk1 pk2 : PrivateKey) :
  privateKey (wallet pk1) = privateKey (wallet pk2) ->
  returned (invoke c) pk1 = returned (invoke c) pk2.
Proof.
  intros H. pose proof H as H'. unfold privateKey in H'.
  destruct c; cbn [invoke];
    unfold returned, sign, signEcda, signHashed, signHashedEcda, signTypedData,
      signHashedTypedData, bind, this_wallet, call, ret;
    cbn [fst snd];
    rewrite ?H, ?(signDigest_secret_only _ _ _ H');
    repeat match goal with
           | |- context [match ?x with Ok _ => _ | Throw _ => _ end] => destruct x
           end;
    reflexivity.
Qed.

End SecretOnly.

(** ** The deprecated constructor against [fromHex] *)

Section LegacyFacts.
Context {P : Primitives}.
Import Hex HexFacts Ethers EthersFacts.

Lemma length_append (a b : string) :
  String.length (a ++ b) = (String.length a + String.length b)%nat.
Proof. induction a as [|c a IH]; cbn [append String.length]; [reflexivity|now rewrite IH]. Qed.

Lemma all_digits_append (a b : string) :
  all_digits (a ++ b) = all_digits a && all_digits b.
Proof.
  induction a as [|c a IH]; cbn [append all_digits]; [reflexivity|].
  now rewrite IH, andb_assoc.
Qed.

Lemma length_toLowerCase (s : string) : String.length (toLowerCase s) = String.length s.
Proof. induction s as [|c s IH]; cbn [toLowerCase String.length]; [reflexivity|now rewrite IH]. Qed.

Lemma isHexString_shape (s : string) :
  isHexString s = true -> exists h, s = "0x" ++ h /\ all_digits h = true.
Proof.
  unfold isHexString. intros H. apply andb_prop in H. destruct H as [H0 Hd].
  destruct s as [|c1 [|c2 s]]; cbn [JS.startsWith] in H0; try discriminate.
  - now rewrite andb_false_r in H0.
  - apply andb_prop in H0. destruct H0 as [E1 E2].
    apply andb_prop in E2. destruct E2 as [E2 _].
    apply Ascii.eqb_eq in E1, E2. subst c1 c2. exists s. now split.
Qed.

(** On a [0x] string of 64 hex digits the string constructor of the wallet
    does what the byte constructor does on the bytes they spell. *)
Lemma Wallet_new_string_0x (h : string) :
  all_digits h = true -> String.length h = 64%nat ->
  Wallet_new_string ("0x" ++ h) = Wallet_new (decode h).
Proof.
  intros Hd Hl.
  assert (He : Nat.even (String.length h) = true) by now rewrite Hl.
  assert (Hb : List.length (decode h) = 32%nat).
  { destruct (length_decode h Hd) as [H|H]; [lia|congruence]. }
  unfold Wallet_new_string.
  change (all_digits ("0x" ++ h)) with false. cbn [andb].
  rewrite isHexString_0x, Hd. cbn [negb].
  change (String.length ("0x" ++ h)) with (S (S (String.length h))). rewrite Hl.
  cbn [Nat.odd Nat.even negb].
  rewrite (toLowerCase_0x h Hd He), hexDataLength_hexlify, Hb. cbn [Nat.eqb negb].
  rewrite arrayify_hexlify, (Wallet_new_32 _ Hb). reflexivity.
Qed.

Lemma Wallet_new_string_bare (h : string) :
  all_digits h = true -> String.length h = 64%nat ->
  Wallet_new_string h = Wallet_new_string ("0x" ++ h).
Proof.
  intros Hd Hl. unfold Wallet_new_string at 1. rewrite Hd, Hl. cbn [Nat.eqb andb].
  unfold Wallet_new_string.
  change (all_digits ("0x" ++ h)) with false. reflexivity.
Qed.

Lemma fromHex_digits (h : string) :
  all_digits h = true ->
  fromHex (SecretString h) = (w <- Wallet_new (decode h) ;; Ok {| wallet := w |})%result /\
  fromHex (SecretString ("0x" ++ h)) = (w <- Wallet_new (decode h) ;; Ok {| wallet := w |})%result.
Proof.
  intros Hd. unfold fromHex. cbn [privateKeyBuff].
  now rewrite strip0x_0x, (strip0x_digits h Hd).
Qed.

(** A string that the string constructor accepts spells 64 hex digits,
    with or without the prefix, and the wallet is the one of the bytes
    they spell. *)
Lemma Wallet_new_string_inv (s : string) (w : Wallet) :
  Wallet_new_string s = Ok w ->
  exists h, all_digits h = true /\ String.length h = 64%nat /\
            (s = h \/ s = "0x" ++ h) /\ Wallet_new (decode h) = Ok w.
Proof.
  intros H.
  assert (Shape : exists h, all_digits h = true /\ String.length h = 64%nat /\
                            (s = h \/ s = "0x" ++ h)).
  { unfold Wallet_new_string in H.
    set (s' := if all_digits s && (String.length s =? 64)%nat then "0x" ++ s else s) in H.
    destruct (isHexString s') eqn:Hx; cbn [negb] in H; [|discriminate].
    destruct (Nat.odd (String.length s')) eqn:Ho; [discriminate|].
    destruct (Nat.eqb_spec (hexDataLength (toLowerCase s')) 32) as [Hl|_];
      cbn [negb] in H; [|discriminate].
    destruct (isHexString_shape s' Hx) as (h & Es & Hd).
    exists h. split; [exact Hd|].
    assert (Hlen : String.length h = 64%nat).
    { unfold hexDataLength in Hl. rewrite length_toLowerCase, Es in Hl.
      rewrite Es in Ho.
      change (String.length ("0x" ++ h)) with (S (S (String.length h))) in Hl, Ho.
      rewrite Nat.odd_succ_succ, <- Nat.negb_even in Ho.
      apply negb_false_iff in Ho.
      apply Nat.even_spec in Ho. destruct Ho as [k Hk]. rewrite Hk in Hl |- *.
      replace (S (S (2 * k)) - 2)%nat with (k * 2)%nat in Hl by lia.
      rewrite Nat.div_mul in Hl by lia. lia. }
    split; [exact Hlen|].
    subst s'. destruct (all_digits s && (String.length s =? 64)%nat) eqn:Ec.
    - left. now injection Es.
    - now right. }
  destruct Shape as (h & Hd & Hl & Hs). exists h.
  split; [exact Hd|]. split; [exact Hl|]. split; [exact Hs|].
  rewrite <- H. destruct Hs as [-> | ->].
  - now rewrite (Wallet_new_string_bare h Hd Hl), (Wallet_new_string_0x h Hd Hl).
  - now rewrite (Wallet_new_string_0x h Hd Hl).
Qed.

End LegacyFacts.

(** ** The exported strings *)

Section Exports.
Context {P : Primitives}.
Import Hex HexFacts Ethers EthersFacts.

Lemma prefixed_once_address (a : string) : well_formed_address a -> prefixed_once a.
Proof.
  intros (h & -> & Hd & _). split; [reflexivity|].
  change (JS.slice 2 ("0x" ++ h)) with h. now apply x_not_digit.
Qed.

(** Every constructor builds the wallet from a 32-byte secret: its key is
    the hex of the secret, its address the one derived from the public
    key of the secret. *)
Lemma constructed_wallet (pk : PrivateKey) :
  (exists secret, fromHex secret = Ok pk) \/
  (exists words path, fromMnemonic words path = Ok pk) \/
  (exists s, fromPrivateKey s = Ok pk) ->
  exists b pub,
    List.length b = 32%nat /\ key_of pk b /\ publicKeyOf b = Ok pub /\
    address (wallet pk) = computeAddress pub.
Proof.
  intros [[secret H]|[[words [path H]]|[s H]]].
  - unfold fromHex in H.
    destruct (Wallet_new (privateKeyBuff secret)) as [w|e] eqn:E; cbn [rbind] in H;
      [|discriminate].
    apply Wallet_new_inv in E. destruct E as (Hl & Hk & Hp & Ha & _).
    injection H as <-. exists (privateKeyBuff secret), (sk_publicKey (_signingKey w)).
    auto.
  - unfold fromMnemonic, Wallet_fromMnemonic in H.
    destruct (mnemonicValid words); cbn [rbind] in H; [|discriminate].
    destruct (deriveSecret words _) as [b|e]; cbn [rbind] in H; [|discriminate].
    destruct (Wallet_new b) as [w|e] eqn:E; cbn [rbind] in H; [|discriminate].
    apply Wallet_new_inv in E. destruct E as (Hl & Hk & Hp & Ha & _).
    injection H as <-. exists b, (sk_publicKey (_signingKey w)).
    cbn. auto.
  - unfold fromPrivateKey in H.
    destruct (Wallet_new_string s) as [w|e] eqn:E; cbn [rbind] in H; [|discriminate].
    apply Wallet_new_string_inv in E. destruct E as (h & _ & _ & _ & E).
    apply Wallet_new_inv in E. destruct E as (Hl & Hk & Hp & Ha & _).
    injection H as <-. exists (decode h), (sk_publicKey (_signingKey w)).
    auto.
Qed.

(** C7, as the code has it.  For a key that [fromHex], [fromMnemonic] or
    [fromPrivateKey] built, [toPrivateKeyHex] is [0x] followed by the lower-case hex digits
    of the secret, and [toHex] is the address derived from the public key
    of the secret, as the wallet library prints it: [0x] followed by hex
    digits, whose letters keep the case of the checksum.  Both carry the
    prefix exactly once.  The rule behind it: a stored form that starts
    with [0x] is returned unchanged, any other gets [0x] in front. *)
Theorem exports_carry_the_prefix_once (pk : PrivateKey) :
  address_shaped P ->
  (exists secret, fromHex secret = Ok pk) \/
  (exists words path, fromMnemonic words path = Ok pk) \/
  (exists s, fromPrivateKey s = Ok pk) ->
  (exists b pub,
     List.length b = 32%nat /\ publicKeyOf b = Ok pub /\
     toPrivateKeyHex pk = "0x" ++ encode b /\
     lower_digits (encode b) = true /\
     toHex pk = computeAddress pub) /\
  prefixed_once (toPrivateKeyHex pk) /\
  prefixed_once (toHex pk) /\
  all_digits (JS.slice 2 (toHex pk)) = true /\
  (forall this : PrivateKey,
     (JS.startsWith "0x" (privateKey (wallet this)) = true ->
      toPrivateKeyHex this = privateKey (wallet this)) /\
     (JS.startsWith "0x" (privateKey (wallet this)) = false ->
      toPrivateKeyHex this = "0x" ++ privateKey (wallet this)) /\
     (JS.startsWith "0x" (address (wallet this)) = true ->
      toHex this = address (wallet this)) /\
     (JS.startsWith "0x" (address (wallet this)) = false ->
      toHex this = "0x" ++ address (wallet this))).
Proof.
  intros Hshape Hbuilt.
  destruct (constructed_wallet pk Hbuilt) as (b & pub & Hl & Hk & Hp & Ha).
  destruct (Hshape pub) as (h & Hh & Hd & Hlen).
  assert (Hhex : toHex pk = computeAddress pub).
  { unfold toHex. rewrite Ha, Hh. reflexivity. }
  split; [|split; [|split; [|split]]].
  - exists b, pub. rewrite (toPrivateKeyHex_key_of pk b Hk).
    repeat split; auto using lower_digits_encode.
  - rewrite (toPrivateKeyHex_key_of pk b Hk). apply prefixed_once_hexlify.
  - rewrite Hhex. apply prefixed_once_address, Hshape.
  - rewrite Hhex, Hh. exact Hd.
  - intros this. unfold toPrivateKeyHex, toHex.
    repeat split; intros ->; reflexivity.
Qed.

End Exports.

Section ExportInstances.
Import Hex Ethers.

(** C7: the address of the secret [1], as ethers derives and stores it,
    has upper-case letters, and [toHex] returns it as it is. *)
Lemma toHex_keeps_checksum_case :
  fromHex (P := Libraries.primitives)
    (SecretString "0x0000000000000000000000000000000000000000000000000000000000000001")
  = Ok Vector.key_of_one /\
  toHex Vector.key_of_one = "0x7E5F4552091A69125d5DfCb7b8C2659029395Bdf" /\
  all_digits (JS.slice 2 (toHex Vector.key_of_one)) = true /\
  lower_digits (JS.slice 2 (toHex Vector.key_of_one)) = false.
Proof.
  split; [vm_compute; reflexivity|]. split; [reflexivity|].
  split; reflexivity.
Qed.

(** The amended C7 on that key. *)
Lemma exports_carry_the_prefix_once_witness :
  (exists b pub,
     List.length b = 32%nat /\ @publicKeyOf Libraries.primitives b = Ok pub /\
     toPrivateKeyHex Vector.key_of_one = "0x" ++ encode b /\
     lower_digits (encode b) = true /\
     toHex Vector.key_of_one = @computeAddress Libraries.primitives pub) /\
  prefixed_once (toPrivateKeyHex Vector.key_of_one) /\
  prefixed_once (toHex Vector.key_of_one).
Proof.
  destruct (exports_carry_the_prefix_once (P := Libraries.primitives)
              Vector.key_of_one Libraries_address_shaped)
    as (Hb & Hkey & Haddress & _).
  - left.
    exists (SecretString "0x0000000000000000000000000000000000000000000000000000000000000001").
    vm_compute. reflexivity.
  - exact (conj Hb (conj Hkey Haddress)).
Defined.

End ExportInstances.

(** ** Statements about the class beyond the claims *)

Section FurtherClaims.
Context {P : Primitives}.
Import Hex HexFacts Ethers EthersFacts.

(** X1. Two instances that store the same key return the same from every
    signing method, whatever their addresses, public keys and mnemonics
    are: a signature depends on the wallet through its private key only. *)
Theorem signatures_depend_only_on_secret (c : SigningCall) (pk1 pk2 : PrivateKey) :
  privateKey (wallet pk1) = privateKey (wallet pk2) ->
  returned (invoke c) pk1 = returned (invoke c) pk2.
Proof. apply invoke_secret_only. Qed.

(** X2. Two secrets that [fromHex] accepts give the same exported key, and
    the same instance, exactly when they decode to the same bytes. *)
Theorem fromHex_same_key_iff_same_bytes (s1 s2 : Secret) (pk1 pk2 : PrivateKey) :
  fromHex s1 = Ok pk1 -> fromHex s2 = Ok pk2 ->
  (toPrivateKeyHex pk1 = toPrivateKeyHex pk2 <-> privateKeyBuff s1 = privateKeyBuff s2) /\
  (pk1 = pk2 <-> privateKeyBuff s1 = privateKeyBuff s2).
Proof.
  intros H1 H2.
  destruct (fromHex_inv s1 pk1 H1) as [_ K1].
  destruct (fromHex_inv s2 pk2 H2) as [_ K2].
  assert (Same : privateKeyBuff s1 = privateKeyBuff s2 -> pk1 = pk2).
  { intros E. unfold fromHex in H1, H2. rewrite E in H1. congruence. }
  assert (Hex : toPrivateKeyHex pk1 = toPrivateKeyHex pk2 ->
                privateKeyBuff s1 = privateKeyBuff s2).
  { rewrite (toPrivateKeyHex_key_of pk1 _ K1), (toPrivateKeyHex_key_of pk2 _ K2).
    apply hexlify_inj. }
  split; split; auto.
  - intros E. now rewrite (Same E).
  - intros ->. now apply Hex.
Qed.

(** X3. The case of the hex letters of a secret string does not matter:
    two strings that become equal when [A]-[F] are written in lower case
    give the same result, be it a key or an error. *)
Theorem fromHex_ignores_letter_case (s1 s2 : string) :
  lowercase s1 = lowercase s2 ->
  fromHex (SecretString s1) = fromHex (SecretString s2).
Proof.
  intros E. unfold fromHex. cbn [privateKeyBuff]. unfold Buffer_from_hex.
  rewrite <- (decode_lowercase (strip0x s1)), <- (decode_lowercase (strip0x s2)).
  now rewrite <- !strip0x_lowercase, E.
Qed.

(** X4. A key derived from a mnemonic, exported with [toPrivateKeyHex] and
    read back by [fromHex], comes back without its mnemonic but with the
    same exported key, public key, address and bech32 address, and it
    signs as the original does. *)
Theorem fromMnemonic_export_reimport
  (words : string) (path : option string) (pk : PrivateKey) :
  fromMnemonic words path = Ok pk ->
  exists pk', fromHex (SecretString (toPrivateKeyHex pk)) = Ok pk' /\
              mnemonic (wallet pk') = None /\
              mnemonic (wallet pk) <> None /\
              toPrivateKeyHex pk' = toPrivateKeyHex pk /\
              toPublicKey pk' = toPublicKey pk /\
              toHex pk' = toHex pk /\
              toBech32 pk' = toBech32 pk /\
              forall c, returned (invoke c) pk' = returned (invoke c) pk.
Proof.
  unfold fromMnemonic, Wallet_fromMnemonic.
  destruct (mnemonicValid words); cbn [rbind]; [|discriminate].
  destruct (deriveSecret words _) as [key|e]; cbn [rbind]; [|discriminate].
  destruct (Wallet_new key) as [w|e] eqn:E; cbn [rbind]; [|discriminate].
  intros [= <-]. exists {| wallet := w |}.
  destruct (Wallet_new_inv key w E) as (Hl & Hk & _ & _ & Hm).
  split.
  - unfold toPrivateKeyHex, privateKey. cbn [wallet _signingKey].
    fold (privateKey w). rewrite Hk.
    change (if JS.startsWith "0x" (hexlify key) then hexlify key else "0x" ++ hexlify key)
      with (hexlify key).
    unfold fromHex. cbn [privateKeyBuff]. unfold hexlify, Buffer_from_hex.
    now rewrite strip0x_0x, decode_encode, E.
  - repeat split; try assumption; try discriminate.
    intros c. now apply invoke_secret_only.
Qed.

(** Hashing first and signing the digest is signing the message:
    [sign(m)] is [signHashed(keccak256(m))] and [signEcda(m)] is
    [signHashedEcda(keccak256(m))], in what they return, throw and leave. *)
Theorem sign_is_signHashed_of_keccak256 (msg : list byte) (this : PrivateKey) :
  sign msg this = signHashed (keccak256 msg) this /\
  signEcda msg this = signHashedEcda (keccak256 msg) this.
Proof. split; reflexivity. Qed.

(** X5. For a key that holds a valid secret, [signTypedData] throws what
    the hashing of the typed data throws; and when the data hashes to a
    32-byte digest, it returns what [signHashedTypedData] returns on that
    digest, followed by one byte, 27 plus the recovery id: 27 or 28. *)
Theorem signTypedData_extends_signHashedTypedData
  (pk : PrivateKey) (b : list byte) (data : TypedData) :
  canonical_ecdsa P -> key_of pk b -> valid_secret b ->
  (forall e, eip712Hash data = Throw e -> returned (signTypedData data) pk = Throw e) /\
  (forall h, eip712Hash data = Ok h -> List.length h = 32%nat ->
     exists sig v,
       returned (signHashedTypedData h) pk = Ok sig /\
       returned (signTypedData data) pk = Ok (sig ++ [v])%list /\
       Byte.to_N v = (27 + ecdsa_recid (be_to_N b) h)%N /\
       (v = x1b \/ v = x1c)).
Proof.
  intros Hc Hk Hv. split.
  - intros e He. now apply typed_data_path_throws.
  - intros h He Hl.
    exists (r_s (be_to_N b) h), (byte_of_N (ecdsa_recid (be_to_N b) h + 27)).
    split; [|split; [|split]].
    + change (signHashedTypedData h) with (signHashedEcda h). now apply primitive_path.
    + now apply typed_data_path.
    + pose proof (recid_bound Hc (be_to_N b) h) as Hr.
      rewrite to_byte_of; lia.
    + pose proof (recid_bound Hc (be_to_N b) h) as Hr.
      assert (ecdsa_recid (be_to_N b) h = 0 \/ ecdsa_recid (be_to_N b) h = 1)%N
        as [-> | ->] by lia; [now left|now right].
Qed.

(** X6. A digest that is not 32 bytes long is signed by none of the three
    methods that take a digest: [signHashed] is stopped by the wallet's
    length check, [signHashedEcda] and [signHashedTypedData] by the
    primitive. *)
Theorem short_digest_is_refused (pk : PrivateKey) (b digest : list byte) :
  key_of pk b -> List.length digest <> 32%nat ->
  returned (signHashed digest) pk = Throw BadDigestLength /\
  returned (signHashedEcda digest) pk = Throw Secp256k1Rejected /\
  returned (signHashedTypedData digest) pk = Throw Secp256k1Rejected.
Proof.
  intros Hk Hd. split; [|split].
  - now apply (wallet_path_length pk b).
  - now apply (primitive_path_length pk b).
  - change (signHashedTypedData digest) with (signHashedEcda digest).
    now apply (primitive_path_length pk b).
Qed.

(** X7. The methods that call the curve primitive directly depend on the
    range of the stored scalar: on a 32-byte digest [signHashedEcda]
    returns [r || s] when the secret is 32 bytes spelling a scalar in
    [1, n-1]; when it is not, [signEcda], [signHashedEcda] and
    [signHashedTypedData] throw on every input, and so does
    [signTypedData] once the data is hashed. *)
Theorem ecda_needs_scalar_in_range (pk : PrivateKey) (b digest : list byte) :
  key_of pk b -> List.length digest = 32%nat ->
  (valid_secret b -> returned (signHashedEcda digest) pk = Ok (r_s (be_to_N b) digest)) /\
  (~ valid_secret b ->
   (forall input, returned (signHashedEcda input) pk = Throw Secp256k1Rejected) /\
   (forall input, returned (signHashedTypedData input) pk = Throw Secp256k1Rejected) /\
   (forall msg, returned (signEcda msg) pk = Throw Secp256k1Rejected) /\
   (forall data h, eip712Hash data = Ok h ->
                   returned (signTypedData data) pk = Throw Secp256k1Rejected)).
Proof.
  intros Hk Hd. split; [intros Hv; now apply primitive_path|].
  intros Hn.
  assert (Rej : forall input, secp256k1_ecdsaSign input b = Throw Secp256k1Rejected).
  { intros input. unfold secp256k1_ecdsaSign.
    destruct (Nat.eqb_spec (List.length input) 32) as [_|_]; [|reflexivity].
    destruct (Nat.eqb_spec (List.length b) 32) as [Hl|_]; [|reflexivity].
    cbn [negb].
    destruct (N.eqb_spec (be_to_N b) 0) as [_|H0]; [reflexivity|].
    destruct (N.leb_spec secp256k1_n (be_to_N b)) as [_|H1]; [reflexivity|].
    exfalso. apply Hn. split; [exact Hl|lia]. }
  assert (Ecda : forall input, returned (signHashedEcda input) pk = Throw Secp256k1Rejected).
  { intros input. unfold returned, signHashedEcda, bind, this_wallet, call, ret.
    cbn [fst snd]. now rewrite (stored_key_bytes pk b Hk), Rej. }
  split; [exact Ecda|]. split; [exact Ecda|].
  split; [intros msg; apply Ecda|].
  intros data h He. unfold returned, signTypedData, bind, this_wallet, call, ret.
  cbn [fst snd]. rewrite (stored_key_bytes pk b Hk).
  unfold ethSigUtil_signTypedData. rewrite He. cbn [rbind]. now rewrite Rej.
Qed.

(** X8. On 64 hex digits, with or without the [0x] prefix and in either
    letter case, the deprecated [fromPrivateKey] gives what [fromHex]
    gives: the same key or the same error. *)
Theorem fromPrivateKey_agrees_with_fromHex (h : string) :
  all_digits h = true -> String.length h = 64%nat ->
  fromPrivateKey h = fromHex (SecretString h) /\
  fromPrivateKey ("0x" ++ h) = fromHex (SecretString ("0x" ++ h)).
Proof.
  intros Hd Hl. destruct (fromHex_digits h Hd) as [-> ->].
  unfold fromPrivateKey.
  now rewrite (Wallet_new_string_bare h Hd Hl), (Wallet_new_string_0x h Hd Hl).
Qed.

(** X9. Whatever [fromPrivateKey] accepts, [fromHex] accepts as well and
    makes the same key of it. *)
Theorem fromPrivateKey_accepted_by_fromHex (s : string) (pk : PrivateKey) :
  fromPrivateKey s = Ok pk -> fromHex (SecretString s) = Ok pk.
Proof.
  intros H.
  assert (Shape : exists h, all_digits h = true /\ String.length h = 64%nat /\
                            (s = h \/ s = "0x" ++ h)).
  { unfold fromPrivateKey, Wallet_new_string in H.
    set (s' := if all_digits s && (String.length s =? 64)%nat then "0x" ++ s else s) in H.
    destruct (isHexString s') eqn:Hx; cbn [negb] in H; [|discriminate].
    destruct (Nat.odd (String.length s')) eqn:Ho; [discriminate|].
    destruct (Nat.eqb_spec (hexDataLength (toLowerCase s')) 32) as [Hl|_];
      cbn [negb] in H; [|discriminate].
    destruct (isHexString_shape s' Hx) as (h & Es & Hd).
    exists h. split; [exact Hd|].
    assert (Hlen : String.length h = 64%nat).
    { unfold hexDataLength in Hl. rewrite length_toLowerCase, Es in Hl.
      rewrite Es in Ho.
      change (String.length ("0x" ++ h)) with (S (S (String.length h))) in Hl, Ho.
      rewrite Nat.odd_succ_succ, <- Nat.negb_even in Ho.
      apply negb_false_iff in Ho. rename Ho into He.
      apply Nat.even_spec in He. destruct He as [k Hk]. rewrite Hk in Hl |- *.
      replace (S (S (2 * k)) - 2)%nat with (k * 2)%nat in Hl by lia.
      rewrite Nat.div_mul in Hl by lia. lia. }
    split; [exact Hlen|].
    subst s'. destruct (all_digits s && (String.length s =? 64)%nat) eqn:Ec.
    - left. now injection Es.
    - now right. }
  destruct Shape as (h & Hd & Hl & [-> | ->]); rewrite <- H.
  - rewrite (proj1 (fromHex_digits h Hd)). unfold fromPrivateKey.
    now rewrite (Wallet_new_string_bare h Hd Hl), (Wallet_new_string_0x h Hd Hl).
  - rewrite (proj2 (fromHex_digits h Hd)). unfold fromPrivateKey.
    now rewrite (Wallet_new_string_0x h Hd Hl).
Qed.

(** X10. Characters after the 64 digits of a secret string are an error
    for [fromPrivateKey], where [fromHex] drops them: when what follows
    cannot begin a further byte, [fromPrivateKey] throws and [fromHex]
    answers as for the 64 digits alone. *)
Theorem fromPrivateKey_refuses_trailing_characters (h junk : string) :
  all_digits h = true -> String.length h = 64%nat ->
  stops junk = true -> junk <> EmptyString ->
  fromPrivateKey ("0x" ++ h ++ junk) = Throw InvalidHexData /\
  fromHex (SecretString ("0x" ++ h ++ junk)) = fromHex (SecretString ("0x" ++ h)).
Proof.
  intros Hd Hl Hs Hj.
  assert (He : Nat.even (String.length h) = true) by now rewrite Hl.
  split.
  - unfold fromPrivateKey, Wallet_new_string.
    change (all_digits ("0x" ++ h ++ junk)) with false. cbn [andb].
    rewrite isHexString_0x, all_digits_append, Hd. cbn [andb].
    destruct (all_digits junk) eqn:Dj; cbn [negb]; [|reflexivity].
    change (String.length ("0x" ++ h ++ junk))
      with (S (S (String.length (h ++ junk)))).
    rewrite length_append, Hl.
    destruct junk as [|c1 [|c2 junk]]; [contradiction|reflexivity|].
    cbn [stops all_digits] in Hs, Dj.
    destruct (is_digit c1); [|discriminate].
    destruct (is_digit c2); discriminate.
  - unfold fromHex. cbn [privateKeyBuff]. unfold Buffer_from_hex.
    now rewrite !strip0x_0x, (decode_stops h junk Hd He Hs).
Qed.

End FurtherClaims.

(** ** The further statements on the sample instance *)

Section FurtherInstances.
Import Hex Ethers.
#[local] Existing Instance Sample.primitives.

Lemma signatures_depend_only_on_secret_witness :
  returned (invoke (CallSign Sample.hello)) Sample.key
  = returned (invoke (CallSign Sample.hello))
      {| wallet := {| _signingKey := _signingKey (wallet Sample.key);
                      address := "0x00";
                      mnemonic := Some ("legal winner", "m/0") |} |}.
Proof.
  apply (signatures_depend_only_on_secret (CallSign Sample.hello) Sample.key).
  reflexivity.
Defined.

Lemma fromHex_same_key_iff_same_bytes_witness :
  (toPrivateKeyHex Sample.key = toPrivateKeyHex Sample.key <->
   privateKeyBuff (SecretBytes Sample.secret)
   = privateKeyBuff (SecretString Sample.malformed)) /\
  (Sample.key = Sample.key <->
   privateKeyBuff (SecretBytes Sample.secret)
   = privateKeyBuff (SecretString Sample.malformed)).
Proof.
  apply (fromHex_same_key_iff_same_bytes
           (SecretBytes Sample.secret) (SecretString Sample.malformed)
           Sample.key Sample.key); reflexivity.
Defined.

Lemma fromHex_ignores_letter_case_witness :
  fromHex (SecretString "0xABcd") = fromHex (SecretString "0xabCD").
Proof. apply fromHex_ignores_letter_case. reflexivity. Defined.

Lemma fromMnemonic_export_reimport_witness :
  exists pk, fromMnemonic "a b c d e f g h i j k l" None = Ok pk /\
  exists pk', fromHex (SecretString (toPrivateKeyHex pk)) = Ok pk' /\
              mnemonic (wallet pk') = None /\ toHex pk' = toHex pk.
Proof.
  destruct (fromMnemonic "a b c d e f g h i j k l" None) as [pk|e] eqn:E.
  - exists pk. split; [reflexivity|].
    destruct (fromMnemonic_export_reimport _ _ _ E)
      as (pk' & H1 & H2 & _ & _ & _ & H3 & _).
    exists pk'. auto.
  - vm_compute in E. discriminate E.
Defined.

Lemma signTypedData_extends_signHashedTypedData_witness :
  exists sig v,
    returned (signHashedTypedData (Sample.digest [x19; x01; x01])) Sample.key = Ok sig /\
    returned (signTypedData (P := Sample.primitives) [x01]) Sample.key
    = Ok (sig ++ [v])%list.
Proof.
  destruct (proj2 (signTypedData_extends_signHashedTypedData (P := Sample.primitives)
                     Sample.key Sample.secret [x01]
                     Sample_canonical Sample_key_of Sample_valid_secret)
                  (Sample.digest [x19; x01; x01]) eq_refl eq_refl)
    as (sig & v & H1 & H2 & _).
  exists sig, v. auto.
Defined.

Lemma short_digest_is_refused_witness :
  returned (signHashed [x01]) Sample.key = Throw BadDigestLength /\
  returned (signHashedEcda [x01]) Sample.key = Throw Secp256k1Rejected /\
  returned (signHashedTypedData [x01]) Sample.key = Throw Secp256k1Rejected.
Proof.
  apply (short_digest_is_refused Sample.key Sample.secret [x01] Sample_key_of).
  discriminate.
Defined.

Lemma ecda_needs_scalar_in_range_witness :
  returned (signHashedEcda Sample.digest32) Sample.key
  = Ok (r_s (be_to_N Sample.secret) Sample.digest32).
Proof.
  exact (proj1 (ecda_needs_scalar_in_range Sample.key Sample.secret Sample.digest32
                  Sample_key_of eq_refl) Sample_valid_secret).
Defined.

Lemma fromPrivateKey_agrees_with_fromHex_witness :
  fromPrivateKey Sample.digits = fromHex (SecretString Sample.digits) /\
  fromPrivateKey ("0x" ++ Sample.digits) = fromHex (SecretString ("0x" ++ Sample.digits)).
Proof. apply fromPrivateKey_agrees_with_fromHex; reflexivity. Defined.

Lemma fromPrivateKey_accepted_by_fromHex_witness :
  fromHex (SecretString Sample.digits) = Ok Sample.key.
Proof. apply fromPrivateKey_accepted_by_fromHex. reflexivity. Defined.

Lemma fromPrivateKey_refuses_trailing_characters_witness :
  fromPrivateKey ("0x" ++ Sample.digits ++ "zz") = Throw InvalidHexData /\
  fromHex (SecretString ("0x" ++ Sample.digits ++ "zz"))
  = fromHex (SecretString ("0x" ++ Sample.digits)).
Proof.
  apply fromPrivateKey_refuses_trailing_characters;
    [reflexivity|reflexivity|reflexivity|discriminate].
Defined.

End FurtherInstances.

(** * Properties of the Ledger transport *)

Module LedgerFacts.
Import Ledger.

Section WithCollaborators.
Context {C : Collaborators}.


Lemma getInstance_raised (this this' : LedgerTransport) (env : Browser)
      (log : list Api) (e : Thrown) :
  getInstance this env = ((log, Raised e), this') ->
  this' = this /\ ledger this = None /\
  exists m, e = LedgerException m (Some GetInstanceContext).
Proof.
  unfold getInstance. destruct (ledger this) as [cached|] eqn:E; [discriminate|].
  destruct (getTransport env) as [l [t|e0]]; [discriminate|].
  intros [= <- <- <-]. repeat split. now exists (message_of e0).
Qed.

(** A call alone: begun, then resumed when its transport search has
    settled, it leaves what the method leaves when it is run in one go. *)
Lemma getInstance_in_two_steps (this : LedgerTransport) (env : Browser) :
  settle 0 env (begin_getInstance {| instance := this; waiting := [] |})
  = {| instance := snd (getInstance this env); waiting := [] |}.
Proof.
  unfold begin_getInstance, settle, getInstance. cbn [instance waiting].
  destruct (ledger this) as [cached|] eqn:E; cbn [instance waiting nth_error List.app].
  - reflexivity.
  - destruct (getTransport env) as [log [t|e]]; reflexivity.
Qed.

Lemma getAccountManager_in_two_steps (this : LedgerTransport) (env : Browser) :
  settle 0 env (begin_getAccountManager {| instance := this; waiting := [] |})
  = {| instance := snd (getAccountManager this env); waiting := [] |}.
Proof.
  unfold begin_getAccountManager, settle, getAccountManager, getInstance.
  cbn [instance waiting].
  destruct (accountManager this) as [am|] eqn:Ea; cbn [instance waiting nth_error List.app].
  - reflexivity.
  - destruct (ledger this) as [cached|] eqn:El; cbn [instance waiting nth_error List.app].
    + cbn [snd]. now rewrite El.
    + destruct (getTransport env) as [log [t|e]]; reflexivity.
Qed.





(** The calls [existingOrRequest] makes are the two it is given. *)
Lemma existingOrRequest_calls (oa ra : Api) openConnected request (env : Browser) :
  forall a, In a (fst (existingOrRequest oa ra openConnected request env)) ->
            a = oa \/ a = ra.
Proof.
  unfold existingOrRequest, catch_null, try_catch, bind, await, pure.
  destruct (openConnected env) as [[t|]|m]; cbn; destruct (request env); cbn;
    intuition.
Qed.

Lemma existingOrRequest_never_none (oa ra : Api) openConnected request (env : Browser) :
  snd (existingOrRequest oa ra openConnected request env) <> Done None.
Proof.
  unfold existingOrRequest, catch_null, try_catch, bind, await, pure.
  destruct (openConnected env) as [[t|]|m]; cbn; destruct (request env); cbn;
    discriminate.
Qed.

Lemma existingOrRequest_rejection_is_none
      (oa ra : Api) (oc1 oc2 : Browser -> Outcome (option Transport)) request
      (env1 env2 : Browser) (m : string) :
  oc1 env1 = Rejected m -> oc2 env2 = Resolved None -> request env1 = request env2 ->
  existingOrRequest oa ra oc1 request env1 = existingOrRequest oa ra oc2 request env2.
Proof.
  intros H1 H2 Hr.
  unfold existingOrRequest, catch_null, try_catch, bind, await, pure.
  now rewrite H1, H2, Hr.
Qed.

Ltac unfold_io :=
  unfold getTransport, getTransport_try, existingOrRequest, catch_null, try_catch,
    bind, await, pure, throw in *.

Ltac split_outcomes :=
  repeat match goal with
         | |- context [match ?x with _ => _ end] =>
             match type of x with
             | Outcome _ => destruct x as [?|?] eqn:?
             | option _ => destruct x as [?|] eqn:?
             | list _ => destruct x as [|? ?] eqn:?
             | bool => destruct x eqn:?
             end; cbn
         | H : context [match ?x with _ => _ end] |- _ =>
             match type of x with
             | Outcome _ => destruct x as [?|?] eqn:?
             | option _ => destruct x as [?|] eqn:?
             | list _ => destruct x as [|? ?] eqn:?
             | bool => destruct x eqn:?
             end; cbn in H
         end.



(** X14. Where WebHID is supported, [getTransport] does not touch WebUSB at
    all, and if it fails it fails with a [LedgerException] without
    context; where WebHID is reported unsupported, the only WebHID call is
    the support check. *)
Theorem getTransport_prefers_hid (env : Browser) :
  (hid_isSupported env = Resolved true ->
   (forall a, In a (fst (getTransport env)) -> is_usb a = false) /\
   (forall e, snd (getTransport env) = Raised e -> exists m, e = LedgerException m None)) /\
  (hid_isSupported env = Resolved false ->
   forall a, In a (fst (getTransport env)) -> a = HID_isSupported \/ is_usb a = true).
Proof.
  split; intros Hs.
  - split.
    + intros a. unfold_io. rewrite Hs. cbn. split_outcomes;
        cbn; intuition (subst; reflexivity).
    + intros e. unfold_io. rewrite Hs. cbn. split_outcomes;
        cbn; intros H; inversion H; eauto.
  - intros a. unfold_io. rewrite Hs. cbn. split_outcomes;
      cbn; intuition (subst; auto).
Qed.

(** X15. When [getTransport] fails, the last call it made is one the
    browser rejected, and not an [openConnected].  What is thrown is a
    [LedgerException] without context made from the message of that
    rejection, except in one case: when neither interface is supported,
    the final [TransportWebUSB.request()] is outside the [try], and its
    rejection comes out as it is. *)
Theorem getTransport_failure (env : Browser) (log : list Api) (e : Thrown) :
  getTransport env = (log, Raised e) ->
  exists (before : list Api) (a : Api) (m : string),
    log = (before ++ [a])%list /\
    rejection env a = Some m /\
    a <> HID_openConnected /\ a <> USB_openConnected /\
    (e = LedgerException m None /\
     ~ (hid_isSupported env = Resolved false /\ usb_isSupported env = Resolved false) \/
     e = Rejection m /\ a = USB_request /\
     hid_isSupported env = Resolved false /\ usb_isSupported env = Resolved false).
Proof.
  unfold_io. split_outcomes; intros H; inversion H; subst;
    match goal with
    | |- exists before a m, ?L = _ /\ _ =>
        exists (removelast L), (last L HID_isSupported)
    end;
    cbn [removelast last]; eexists;
    (split; [reflexivity|]);
    (split; [unfold rejection;
             match goal with
             | E : ?f env = Rejected _ |- context [?f env] => rewrite E
             end; reflexivity|]);
    (split; [discriminate|]); (split; [discriminate|]);
    first [ left; split; [reflexivity|intros [? ?]; congruence]
          | right; auto ].
Qed.

(** X16. A call that fails changes nothing: when [getInstance] throws, the
    instance is as before, no application object is cached, and what is
    thrown is a [LedgerException] with the [GetInstance] context, also for
    a rejection that [getTransport] let through; the same holds for
    [getAccountManager], which caches no manager then. *)
Theorem failed_call_leaves_instance (this this' : LedgerTransport) (env : Browser)
        (log : list Api) (e : Thrown) :
  (getInstance this env = ((log, Raised e), this') ->
   this' = this /\ ledger this = None /\
   exists m, e = LedgerException m (Some GetInstanceContext)) /\
  (getAccountManager this env = ((log, Raised e), this') ->
   this' = this /\ accountManager this = None /\
   exists m, e = LedgerException m (Some GetInstanceContext)).
Proof.
  split; [apply getInstance_raised|].
  unfold getAccountManager. destruct (accountManager this) as [am|] eqn:E; [discriminate|].
  destruct (getInstance this env) as [[l [app|e0]] this1] eqn:G; [discriminate|].
  intros [= <- <- <-].
  destruct (getInstance_raised _ _ _ _ _ G) as (-> & _ & Hm). auto.
Qed.

(** X17. A rejection of [openConnected] is not an error: [getTransport]
    makes the same calls and ends the same way as when [openConnected]
    had found no connected device, for WebHID and for WebUSB. *)
Theorem openConnected_rejection_counts_as_none (env : Browser) (m : string) :
  (hid_openConnected env = Rejected m ->
   getTransport env = getTransport (with_hid_openConnected env (Resolved None))) /\
  (usb_openConnected env = Rejected m ->
   getTransport env = getTransport (with_usb_openConnected env (Resolved None))).
Proof.
  split; intros H; destruct env as [his hl hoc hr uis uoc ur]; cbn in H; subst;
    unfold_io; cbn; split_outcomes; reflexivity.
Qed.

End WithCollaborators.

(** *** On the sample browsers *)

Section Samples.
#[local] Existing Instance sampleCollaborators.




(** X15 where the user turns the request down, inside the [try]. *)
Lemma getTransport_failure_witness :
  exists (before : list Api) (a : Api) (m : string),
    [HID_isSupported; HID_list; HID_openConnected; HID_request] = (before ++ [a])%list /\
    rejection refusingBrowser a = Some m /\
    a <> HID_openConnected /\ a <> USB_openConnected /\
    (LedgerException "cancelled" None = LedgerException m None /\
     ~ (hid_isSupported refusingBrowser = Resolved false /\
        usb_isSupported refusingBrowser = Resolved false) \/
     LedgerException "cancelled" None = Rejection m /\ a = USB_request /\
     hid_isSupported refusingBrowser = Resolved false /\
     usb_isSupported refusingBrowser = Resolved false).
Proof.
  apply (getTransport_failure refusingBrowser
           [HID_isSupported; HID_list; HID_openConnected; HID_request]
           (LedgerException "cancelled" None)).
  reflexivity.
Defined.

(** Where neither interface is there, the rejection comes out unwrapped,
    with the message of the last call. *)
Example getTransport_unwrapped :
  getTransport bareBrowser
  = ([HID_isSupported; USB_isSupported; USB_request], Raised (Rejection "unsupported")).
Proof. reflexivity. Qed.

End Samples.

End LedgerFacts.
